(** * LRU-cached range sums over a mutable array (task-1.py)

    A shallow embedding of the cache layer of [task-1.py]: the [LRUCache]
    class (an [OrderedDict] with a capacity), the two uncached array
    functions, the two cached ones, the two drivers that run a list of
    queries and the generator of such lists; and, further down, of the
    sliding-window rate limiter of [task-2.py].

    Conventions.
    - Python integers are unbounded: [Z].
    - A Python list of integers is a [list Z]; [array[index] = value] is
      stdpp's list insert behind Python's index normalisation and bounds
      check, [array[a:b]] is [take]/[drop] behind Python's slice clamping.
    - An [OrderedDict] is an association list, oldest entry first; a
      dictionary holds each key once ([OrderedDict.wf]).
    - The module-level functions and the constructor return an explicit
      outcome [exc]: [Ok] for a normal return, [Raise] for an exception.
      Arguments that Python mutates in place (the array, the cache) are
      returned next to the outcome; an exception does not roll them back.
    - The methods of [LRUCache] guard every dictionary operation that could
      raise, so they are total functions on the cache state. *)

From stdpp Require Import base numbers list strings gmap.

Local Open Scope Z_scope.

(** ** Outcomes of a call *)

Inductive exn : Type := IndexError | KeyError.

Inductive exc (A : Type) : Type :=
| Ok (a : A)
| Raise (e : exn).
Arguments Ok {A} a.
Arguments Raise {A} e.

Definition exc_bind {A B : Type} (m : exc A) (f : A → exc B) : exc B :=
  match m with
  | Ok a => f a
  | Raise e => Raise e
  end.

Definition exc_map {A B : Type} (f : A → B) (m : exc A) : exc B :=
  exc_bind m (λ a, Ok (f a)).

Definition is_ok {A : Type} (m : exc A) : bool :=
  match m with Ok _ => true | Raise _ => false end.

(** ** Python lists of integers *)

Module PyList.

(** [sum(xs)]: a left fold from 0. *)
Definition sum (xs : list Z) : Z := foldl Z.add 0 xs.

(** How a slice bound is clamped for a list of length [n]: a negative
    bound counts from the end and stops at 0, a positive one stops at
    [n]. *)
Definition slice_bound (i n : Z) : Z :=
  if i <? 0 then Z.max (i + n) 0 else Z.min i n.

(** [xs[start:stop]]; never raises. *)
Definition slice (xs : list Z) (start stop : Z) : list Z :=
  let n := Z.of_nat (length xs) in
  let lo := slice_bound start n in
  let hi := slice_bound stop n in
  take (Z.to_nat (hi - lo)) (drop (Z.to_nat lo) xs).

(** [xs[index] = value]: a negative index counts from the end; outside
    [-n, n) Python raises IndexError and the list is untouched. *)
Definition setitem (xs : list Z) (index value : Z) : exc (list Z) :=
  let n := Z.of_nat (length xs) in
  let i := if index <? 0 then index + n else index in
  if (0 <=? i) && (i <? n)
  then Ok (<[Z.to_nat i := value]> xs)
  else Raise IndexError.

End PyList.

(** ** OrderedDict keyed by (left, right) *)

(** A key is the pair (left, right) of a range. *)
Abbreviation key := (Z * Z)%type (only parsing).

Module OrderedDict.

(** Entries in insertion order, oldest first. *)
Abbreviation t := (list (key * Z)) (only parsing).

(** [d.keys()] *)
Definition keys (d : t) : list key := d.*1.

(** The value stored under [k], if any. *)
Fixpoint lookup (d : t) (k : key) : option Z :=
  match d with
  | [] => None
  | (k', v) :: d' => if decide (k' = k) then Some v else lookup d' k
  end.

(** [k in d] *)
Definition contains (d : t) (k : key) : bool :=
  match lookup d k with Some _ => true | None => false end.

(** The dictionary left by [d.pop(k)]. *)
Definition remove (d : t) (k : key) : t := filter (λ e, e.1 ≠ k) d.

(** [d[k] = v]: an existing key keeps its position and takes the new
    value, a new key goes to the end. *)
Fixpoint setitem (d : t) (k : key) (v : Z) : t :=
  match d with
  | [] => [(k, v)]
  | (k', v') :: d' =>
      if decide (k' = k) then (k, v) :: d' else (k', v') :: setitem d' k v
  end.

(** The dictionary left by [d.popitem(last=False)] on a non-empty [d]. *)
Definition popitem_first (d : t) : t := tail d.

(** [OrderedDict(items)]: the pairs are inserted one after the other. *)
Definition of_items (items : list (key * Z)) : t :=
  foldl (λ d e, setitem d e.1 e.2) [] items.

(** A dictionary holds each key once. *)
Definition wf (d : t) : Prop := NoDup (keys d).

End OrderedDict.

(** ** class LRUCache *)

Record LRUCache : Type := mkLRUCache {
  capacity : Z;
  _data : OrderedDict.t
}.

(** [LRUCache(capacity)]: stores the capacity as given and starts with an
    empty dictionary. *)
Definition LRUCache_init (capacity : Z) : exc LRUCache :=
  Ok {| capacity := capacity; _data := [] |}.

(** [self.get(key)]: the returned integer and the cache afterwards; -1
    stands for a missing key. *)
Definition LRUCache_get (self : LRUCache) (k : key) : Z * LRUCache :=
  match OrderedDict.lookup (_data self) k with
  | None => (-1, self)
  | Some val =>
      let d := OrderedDict.remove (_data self) k in
      (val, {| capacity := capacity self;
               _data := OrderedDict.setitem d k val |})
  end.

(** [self.put(key, value)]. The [popitem] runs on a dictionary that has
    just received [key], so it cannot raise. *)
Definition LRUCache_put (self : LRUCache) (k : key) (value : Z) : LRUCache :=
  let d1 := if OrderedDict.contains (_data self) k
            then OrderedDict.remove (_data self) k
            else _data self in
  let d2 := OrderedDict.setitem d1 k value in
  let d3 := if capacity self <? Z.of_nat (length d2)
            then OrderedDict.popitem_first d2
            else d2 in
  {| capacity := capacity self; _data := d3 |}.

(** [self.keys()] *)
Definition LRUCache_keys (self : LRUCache) : list key :=
  OrderedDict.keys (_data self).

(** [len(self)] *)
Definition LRUCache_len (self : LRUCache) : Z :=
  Z.of_nat (length (_data self)).

(** ** Functions without cache *)

Definition range_sum_no_cache (array : list Z) (left right : Z) : exc Z :=
  Ok (PyList.sum (PyList.slice array left (right + 1))).

(** The outcome and the array afterwards. *)
Definition update_no_cache (array : list Z) (index value : Z)
  : exc unit * list Z :=
  match PyList.setitem array index value with
  | Ok array' => (Ok tt, array')
  | Raise e => (Raise e, array)
  end.

(** ** Functions with cache *)

(** The outcome and the cache afterwards; the array is only read. *)
Definition range_sum_with_cache (array : list Z) (left right : Z)
    (cache : LRUCache) : exc Z * LRUCache :=
  let k := (left, right) in
  let '(cached, cache1) := LRUCache_get cache k in
  if negb (cached =? -1) then (Ok cached, cache1)
  else
    let res := PyList.sum (PyList.slice array left (right + 1)) in
    (Ok res, LRUCache_put cache1 k res).

(** [l <= index <= r] *)
Definition covers (index : Z) (k : key) : bool :=
  (k.1 <=? index) && (index <=? k.2).

(** The outcome, and the array and the cache afterwards. *)
Definition update_with_cache (array : list Z) (index value : Z)
    (cache : LRUCache) : exc unit * (list Z * LRUCache) :=
  match PyList.setitem array index value with
  | Raise e => (Raise e, (array, cache))
  | Ok array' =>
      let to_delete := filter (λ k, covers index k) (LRUCache_keys cache) in
      match to_delete with
      | [] => (Ok tt, (array', cache))
      | _ :: _ =>
          let new_data :=
            OrderedDict.of_items
              (filter (λ e, e.1 ∉ to_delete) (_data cache)) in
          (Ok tt, (array', {| capacity := capacity cache;
                              _data := new_data |}))
      end
  end.

(** ** Running a list of queries *)

Inductive query : Type :=
| Range (left right : Z)
| Update (index value : Z).

(** The source discards what each range sum returns ([_ = ...]); the model
    collects these values in call order, so that the two drivers can be
    compared on them. An exception ends the run. *)
Fixpoint loop_no_cache (array : list Z) (queries : list query)
  : exc (list Z) * list Z :=
  match queries with
  | [] => (Ok [], array)
  | Range l r :: qs =>
      match range_sum_no_cache array l r with
      | Raise e => (Raise e, array)
      | Ok s =>
          let '(out, array') := loop_no_cache array qs in
          (exc_map (cons s) out, array')
      end
  | Update idx val :: qs =>
      match update_no_cache array idx val with
      | (Raise e, array') => (Raise e, array')
      | (Ok _, array') => loop_no_cache array' qs
      end
  end.

Definition run_sequence_no_cache (array : list Z) (queries : list query)
  : exc (list Z) * list Z :=
  loop_no_cache array queries.

Fixpoint loop_with_cache (array : list Z) (cache : LRUCache)
    (queries : list query) : exc (list Z) * (list Z * LRUCache) :=
  match queries with
  | [] => (Ok [], (array, cache))
  | Range l r :: qs =>
      match range_sum_with_cache array l r cache with
      | (Raise e, cache') => (Raise e, (array, cache'))
      | (Ok s, cache') =>
          let '(out, st) := loop_with_cache array cache' qs in
          (exc_map (cons s) out, st)
      end
  | Update idx val :: qs =>
      match update_with_cache array idx val cache with
      | (Raise e, st) => (Raise e, st)
      | (Ok _, (array', cache')) => loop_with_cache array' cache' qs
      end
  end.

Definition run_sequence_with_cache (array : list Z) (queries : list query)
    (capacity : Z) : exc (list Z) * list Z :=
  match LRUCache_init capacity with
  | Raise e => (Raise e, array)
  | Ok cache =>
      let '(out, (array', _)) := loop_with_cache array cache queries in
      (out, array')
  end.

(** ** Sequences of calls on one cache *)

(** A sequence of calls on one cache. *)
Inductive cache_op : Type :=
| Put (k : key) (v : Z)
| Get (k : key).

Definition apply_op (c : LRUCache) (op : cache_op) : LRUCache :=
  match op with
  | Put k v => LRUCache_put c k v
  | Get k => (LRUCache_get c k).2
  end.

Definition run_ops (c : LRUCache) (ops : list cache_op) : LRUCache :=
  foldl apply_op c ops.

(** The branch taken by [range_sum_with_cache]: a hit is an answer of
    [get] other than -1. *)
Definition cache_hit (cache : LRUCache) (k : key) : bool :=
  negb ((LRUCache_get cache k).1 =? -1).

(** ** Valid queries and the soundness of the store *)

(** A query the drivers are meant to receive for an array of length [n]. *)
Definition valid_query (n : Z) (q : query) : Prop :=
  match q with
  | Range l r => 0 <= l <= r ∧ r < n
  | Update idx _ => 0 <= idx < n
  end.

(** Every stored entry is a range inside the array together with the sum
    the array currently has on that range. *)
Definition cache_sound (array : list Z) (cache : LRUCache) : Prop :=
  ∀ l r v, (l, r, v) ∈ _data cache →
    (0 <= l <= r ∧ r < Z.of_nat (length array)) ∧
    v = PyList.sum (PyList.slice array l (r + 1)).

(** ** Wider classes of queries *)

(** A query under which the store stays exact although it may reach past
    the end of the array: a range that starts at 0 or later and ends at -1
    or later, or an update inside the array. *)
Definition admissible_query (n : Z) (q : query) : Prop :=
  match q with
  | Range l r => 0 <= l ∧ -1 <= r
  | Update idx _ => 0 <= idx < n
  end.

Definition is_range (q : query) : bool :=
  match q with Range _ _ => true | Update _ _ => false end.

(** Every stored value is the sum the array currently has on the slice of
    its key. *)
Definition cache_coherent (array : list Z) (cache : LRUCache) : Prop :=
  ∀ l r v, (l, r, v) ∈ _data cache →
    v = PyList.sum (PyList.slice array l (r + 1)).

(** Every stored key starts at 0 or later and ends at -1 or later. *)
Definition keys_from_start (cache : LRUCache) : Prop :=
  ∀ l r v, (l, r, v) ∈ _data cache → 0 <= l ∧ -1 <= r.

(** ** make_queries

    The generator draws from Python's global random source. The model
    threads the state of that source, of an arbitrary type [G], through
    the draws in the order the code makes them, and takes the draws
    themselves as parameters: [randint_draw a b] is the draw behind
    [random.randint(a, b)] for a non-empty range, [random_draw] the draw
    behind [random.random()], [randbelow n] the index draw behind
    [random.choice] on a sequence of length n. Floats, of an arbitrary
    type [F], are only compared, by [float_lt]. A call that raises
    ([randint] on an empty range, [choice] on an empty sequence) has no
    result. *)

Section random.
Context {G F : Type}.
Variable randint_draw : Z → Z → G → Z * G.
Variable random_draw : G → F * G.
Variable float_lt : F → F → bool.
Variable randbelow : nat → G → nat * G.

(** A computation that draws: from a state of the source to a result and
    the next state, or to nothing when it raises. *)
Definition rnd (A : Type) : Type := G → option (A * G).

Definition rnd_ret {A : Type} (a : A) : rnd A := λ g, Some (a, g).

Definition rnd_bind {A B : Type} (m : rnd A) (f : A → rnd B) : rnd B :=
  λ g, match m g with
       | Some (a, g') => f a g'
       | None => None
       end.

(** [random.randint(a, b)]: ValueError when a > b. *)
Definition random_randint (a b : Z) : rnd Z :=
  λ g, if a <=? b then Some (randint_draw a b g) else None.

(** [random.random()] *)
Definition random_random : rnd F := λ g, Some (random_draw g).

(** [random.choice(seq)]: IndexError on an empty sequence. *)
Definition random_choice {A : Type} (seq : list A) : rnd A :=
  λ g, match seq with
       | [] => None
       | _ :: _ =>
           let '(i, g') := randbelow (length seq) g in
           match seq !! i with
           | Some x => Some (x, g')
           | None => None
           end
       end.

(** The comprehension that builds [hot]: [count] pairs, each drawn left
    to right. *)
Fixpoint make_hot (count : nat) (n : Z) : rnd (list (Z * Z)) :=
  match count with
  | O => rnd_ret []
  | S count' =>
      rnd_bind (random_randint 0 (n / 2)) (λ a,
      rnd_bind (random_randint (n / 2) (n - 1)) (λ b,
      rnd_bind (make_hot count' n) (λ rest,
      rnd_ret ((a, b) :: rest))))
  end.

(** One turn of the loop: the query it appends. *)
Definition make_query (n : Z) (hot : list (Z * Z)) (p_hot p_update : F)
  : rnd query :=
  rnd_bind random_random (λ u,
  if float_lt u p_update then
    rnd_bind (random_randint 0 (n - 1)) (λ idx,
    rnd_bind (random_randint 1 100) (λ val,
    rnd_ret (Update idx val)))
  else
    rnd_bind random_random (λ h,
    if float_lt h p_hot then
      rnd_bind (random_choice hot) (λ lr, rnd_ret (Range lr.1 lr.2))
    else
      rnd_bind (random_randint 0 (n - 1)) (λ left,
      rnd_bind (random_randint left (n - 1)) (λ right,
      rnd_ret (Range left right))))).

(** The loop [for _ in range(q)]. *)
Fixpoint make_queries_loop (count : nat) (n : Z) (hot : list (Z * Z))
    (p_hot p_update : F) : rnd (list query) :=
  match count with
  | O => rnd_ret []
  | S count' =>
      rnd_bind (make_query n hot p_hot p_update) (λ qy,
      rnd_bind (make_queries_loop count' n hot p_hot p_update) (λ rest,
      rnd_ret (qy :: rest)))
  end.

(** [make_queries(n, q, hot_pool, p_hot, p_update)]; [range] of a number
    below 1 is empty. *)
Definition make_queries (n q hot_pool : Z) (p_hot p_update : F)
  : rnd (list query) :=
  rnd_bind (make_hot (Z.to_nat hot_pool) n) (λ hot,
  make_queries_loop (Z.to_nat q) n hot p_hot p_update).

End random.

(** A small deterministic source to run the generator on: the state is a
    counter, every draw steps it; floats are stood for by whole
    percents. *)
Definition counter_randint_draw (a b : Z) (g : nat) : Z * nat :=
  (a + Z.of_nat g `mod` (b - a + 1), S g).

Definition counter_random_draw (g : nat) : nat * nat :=
  ((g * 37) `mod` 100, S g)%nat.

Definition counter_randbelow (n : nat) (g : nat) : nat * nat :=
  (g `mod` n, S g)%nat.

(** * Sliding-window rate limiter (task-2.py)

    The limiter reads the clock with [time.time()] and keeps timestamps as
    Python floats. The model takes the reading of the clock as an argument
    [now] of each method and leaves the floats abstract: a type [T] with
    the subtraction, the addition and the two comparisons the code uses,
    about which nothing is assumed. [history] is a finite map from user
    ids to deques, a deque being the list of its timestamps, oldest
    first. *)

Section rate_limiter.
Context {T : Type}.
Variable float_of_int : Z → T.
Variable float_add float_sub : T → T → T.
Variable float_le float_lt : T → T → bool.

Record SlidingWindowRateLimiter : Type := mkLimiter {
  window_size : T;
  max_requests : Z;
  history : gmap string (list T)
}.

(** [SlidingWindowRateLimiter(window_size, max_requests)] on two
    integers. *)
Definition SlidingWindowRateLimiter_init (window_size max_requests : Z)
  : SlidingWindowRateLimiter :=
  {| window_size := float_of_int window_size;
     max_requests := max_requests;
     history := ∅ |}.

(** [while dq and dq[0] <= window_start: dq.popleft()] *)
Fixpoint popleft_while (window_start : T) (dq : list T) : list T :=
  match dq with
  | [] => []
  | t :: dq' =>
      if float_le t window_start then popleft_while window_start dq'
      else dq
  end.

(** [self._cleanup_window(user_id, current_time)]. The deque is changed in
    place, so what [history] holds for the user changes with it. *)
Definition _cleanup_window (self : SlidingWindowRateLimiter)
    (user_id : string) (current_time : T) : SlidingWindowRateLimiter :=
  match history self !! user_id with
  | None => self
  | Some dq =>
      let window_start := float_sub current_time (window_size self) in
      let dq' := popleft_while window_start dq in
      {| window_size := window_size self;
         max_requests := max_requests self;
         history := match dq' with
                    | [] => delete user_id (history self)
                    | _ :: _ => <[user_id := dq']> (history self)
                    end |}
  end.

(** [self.can_send_message(user_id)] when the clock reads [now]: the
    answer and the limiter afterwards. *)
Definition can_send_message (self : SlidingWindowRateLimiter)
    (user_id : string) (now : T) : bool * SlidingWindowRateLimiter :=
  let self1 := _cleanup_window self user_id now in
  match history self1 !! user_id with
  | None => (true, self1)
  | Some dq => (Z.of_nat (length dq) <? max_requests self1, self1)
  end.

(** [self.record_message(user_id)] when the clock reads [now]. *)
Definition record_message (self : SlidingWindowRateLimiter)
    (user_id : string) (now : T) : bool * SlidingWindowRateLimiter :=
  let self1 := _cleanup_window self user_id now in
  let dq := default [] (history self1 !! user_id) in
  if Z.of_nat (length dq) <? max_requests self1 then
    (true, {| window_size := window_size self1;
              max_requests := max_requests self1;
              history := <[user_id := dq ++ [now]]> (history self1) |})
  else
    (false, {| window_size := window_size self1;
               max_requests := max_requests self1;
               history := <[user_id := dq]> (history self1) |}).

(** [max(0.0, wait)]: the second argument when it is greater, else the
    first. *)
Definition float_max (a b : T) : T := if float_lt a b then b else a.

(** [self.time_until_next_allowed(user_id)] when the clock reads [now];
    [dq[0]] raises IndexError on an empty deque. *)
Definition time_until_next_allowed (self : SlidingWindowRateLimiter)
    (user_id : string) (now : T) : exc T * SlidingWindowRateLimiter :=
  let self1 := _cleanup_window self user_id now in
  match history self1 !! user_id with
  | None => (Ok (float_of_int 0), self1)
  | Some dq =>
      if Z.of_nat (length dq) <? max_requests self1
      then (Ok (float_of_int 0), self1)
      else
        match dq with
        | [] => (Raise IndexError, self1)
        | t0 :: _ =>
            let wait := float_sub (float_add t0 (window_size self1)) now in
            (Ok (float_max (float_of_int 0) wait), self1)
        end
  end.

(** A call on the limiter, with the reading of the clock at the call. *)
Inductive limiter_call : Type :=
| CanSend (user_id : string) (now : T)
| Record (user_id : string) (now : T)
| TimeUntil (user_id : string) (now : T).

Definition limiter_step (self : SlidingWindowRateLimiter) (c : limiter_call)
  : SlidingWindowRateLimiter :=
  match c with
  | CanSend u now => (can_send_message self u now).2
  | Record u now => (record_message self u now).2
  | TimeUntil u now => (time_until_next_allowed self u now).2
  end.

Definition limiter_run (self : SlidingWindowRateLimiter)
    (calls : list limiter_call) : SlidingWindowRateLimiter :=
  foldl limiter_step self calls.

End rate_limiter.

(** * Properties *)

(** ** Sanity checks on concrete runs *)

Example scenario_spec :
  run_sequence_with_cache (replicate 10 1)
    [Range 0 4; Range 5 9; Range 0 2; Update 1 100; Range 5 9; Range 0 2] 2
  = (Ok [5; 5; 3; 5; 102],
     [1; 100; 1; 1; 1; 1; 1; 1; 1; 1]).
Proof. vm_compute. reflexivity. Qed.

(** The same run without the cache. *)
Example scenario_spec_no_cache :
  run_sequence_no_cache (replicate 10 1)
    [Range 0 4; Range 5 9; Range 0 2; Update 1 100; Range 5 9; Range 0 2]
  = (Ok [5; 5; 3; 5; 102],
     [1; 100; 1; 1; 1; 1; 1; 1; 1; 1]).
Proof. vm_compute. reflexivity. Qed.

(** An update past the end stops either run with IndexError; the values
    returned before it are not part of the outcome. *)
Example scenario_index_error :
  run_sequence_with_cache [1; 2; 3] [Range 0 2; Update 3 7; Range 0 2] 2
    = (Raise IndexError, [1; 2; 3]) ∧
  run_sequence_no_cache [1; 2; 3] [Range 0 2; Update 3 7; Range 0 2]
    = (Raise IndexError, [1; 2; 3]).
Proof. split; vm_compute; reflexivity. Qed.

(** A negative index is written by both runs, but the sweep compares the
    index as given with the cached ranges, so the cached run keeps the old
    sum of (0, 2) where the uncached run sees the new cell. *)
Example scenario_negative_index :
  run_sequence_with_cache [1; 2; 3] [Range 0 2; Update (-1) 10; Range 0 2] 2
    = (Ok [6; 6], [1; 2; 10]) ∧
  run_sequence_no_cache [1; 2; 3] [Range 0 2; Update (-1) 10; Range 0 2]
    = (Ok [6; 13], [1; 2; 10]).
Proof. split; vm_compute; reflexivity. Qed.

(** ** Facts about the dictionary model *)

Section od_facts.
Import OrderedDict.
Implicit Types (d : OrderedDict.t) (k : key) (v : Z).

Lemma od_lookup_None d k : lookup d k = None ↔ k ∉ keys d.
Proof.
  unfold keys. induction d as [|[k' v'] d IH]; simpl.
  - split; [intros _; apply not_elem_of_nil | done].
  - rewrite not_elem_of_cons. destruct (decide (k' = k)) as [->|Hne].
    + split; [done | intros [? _]; done].
    + rewrite IH. split; [intros ?; split; [congruence | done] | tauto].
Qed.

Lemma od_lookup_Some_elem d k v : lookup d k = Some v → (k, v) ∈ d.
Proof.
  induction d as [|[k' v'] d IH]; simpl; [done |].
  destruct (decide (k' = k)) as [->|Hne].
  - intros [= ->]. apply list_elem_of_here.
  - intros H. apply list_elem_of_further, IH, H.
Qed.

Lemma od_lookup_app d1 d2 k :
  lookup (d1 ++ d2) k =
    match lookup d1 k with Some v => Some v | None => lookup d2 k end.
Proof.
  induction d1 as [|[k' v'] d1 IH]; simpl; [done |].
  destruct (decide (k' = k)); [done | apply IH].
Qed.

Lemma od_lookup_filter_keep (Q : key * Z → Prop) `{!∀ e, Decision (Q e)} d k :
  (∀ v, Q (k, v)) → lookup (filter Q d) k = lookup d k.
Proof.
  intros HQ. induction d as [|[k' v'] d IH]; [done |].
  rewrite filter_cons. cbn [lookup].
  destruct (decide (Q (k', v'))) as [Hk'|Hk']; cbn [lookup]; rewrite IH;
    destruct (decide (k' = k)) as [->|Hne]; try done.
  destruct Hk'. apply HQ.
Qed.

Lemma od_lookup_filter_drop (Q : key * Z → Prop) `{!∀ e, Decision (Q e)} d k :
  (∀ v, ¬ Q (k, v)) → lookup (filter Q d) k = None.
Proof.
  intros HQ. induction d as [|[k' v'] d IH]; [done |].
  rewrite filter_cons.
  destruct (decide (Q (k', v'))) as [Hk'|Hk']; cbn [lookup]; rewrite ?IH; try done.
  destruct (decide (k' = k)) as [->|Hne]; [| done].
  destruct (HQ _ Hk').
Qed.

Lemma od_lookup_remove_eq d k : lookup (remove d k) k = None.
Proof. apply od_lookup_filter_drop. intros v H. by apply H. Qed.

Lemma od_lookup_remove_ne d k k' : k' ≠ k → lookup (remove d k) k' = lookup d k'.
Proof. intros Hne. apply od_lookup_filter_keep. intros v. exact Hne. Qed.

Lemma od_remove_fresh d k : lookup d k = None → remove d k = d.
Proof.
  unfold remove. induction d as [|[k' v'] d IH]; simpl; [done |].
  destruct (decide (k' = k)) as [->|Hne]; [done |]. intros H.
  rewrite filter_cons_True by done. by rewrite IH.
Qed.

Lemma od_setitem_fresh d k v : lookup d k = None → setitem d k v = d ++ [(k, v)].
Proof.
  induction d as [|[k' v'] d IH]; simpl; [done |].
  destruct (decide (k' = k)); [done |]. intros H. by rewrite IH.
Qed.

(** After [d[k] = v] the dictionary is not empty, so the [popitem] in
    [LRUCache_put] has an entry to take. *)
Lemma od_setitem_nonempty d k v : setitem d k v ≠ [].
Proof. destruct d as [|[k' v'] d]; simpl; [done |]. by destruct (decide (k' = k)). Qed.

(** [pop] then [d[k] = v]: the key ends up last. *)
Lemma od_setitem_remove d k v :
  setitem (remove d k) k v = remove d k ++ [(k, v)].
Proof. apply od_setitem_fresh, od_lookup_remove_eq. Qed.

Lemma od_lookup_snoc_eq d k v : lookup d k = None → lookup (d ++ [(k, v)]) k = Some v.
Proof. intros H. rewrite od_lookup_app, H. simpl. by rewrite decide_True. Qed.

Lemma od_wf_filter (P : key * Z → Prop) `{!∀ e, Decision (P e)} d :
  wf d → wf (filter P d).
Proof.
  unfold wf, keys. induction d as [|[k v] d IH]; [done |].
  rewrite fmap_cons, NoDup_cons. intros [Hk Hd].
  rewrite filter_cons. destruct (decide (P (k, v))); [| by apply IH].
  rewrite fmap_cons. apply NoDup_cons. split; [| by apply IH].
  intros Hin. apply Hk. apply list_elem_of_fmap in Hin as [e [-> He]].
  apply list_elem_of_filter in He as [_ He].
  apply list_elem_of_fmap. by exists e.
Qed.

Lemma od_wf_snoc d k v : wf d → lookup d k = None → wf (d ++ [(k, v)]).
Proof.
  unfold wf, keys. intros Hd Hk. rewrite fmap_app. apply NoDup_app.
  split; [done |]. split; [| apply NoDup_singleton].
  intros x Hx Hx'. cbn in Hx'. apply list_elem_of_singleton in Hx' as ->.
  by apply od_lookup_None in Hk.
Qed.

Lemma od_wf_tail d : wf d → wf (tail d).
Proof.
  unfold wf, keys. destruct d as [|e d]; [done |]. simpl.
  apply NoDup_cons_1_2.
Qed.

Lemma od_of_items_acc (acc items : OrderedDict.t) :
  wf (acc ++ items) →
  foldl (λ d e, setitem d e.1 e.2) acc items = acc ++ items.
Proof.
  revert acc. induction items as [|[k v] items IH]; intros acc Hwf; simpl.
  - by rewrite app_nil_r.
  - assert (lookup acc k = None) as Hk.
    { apply od_lookup_None. unfold wf, keys in Hwf.
      rewrite fmap_app in Hwf. apply NoDup_app in Hwf as (_ & Hdisj & _).
      intros Hin. apply (Hdisj _ Hin). rewrite fmap_cons. apply list_elem_of_here. }
    rewrite (od_setitem_fresh _ _ _ Hk).
    rewrite IH; rewrite <- app_assoc; done.
Qed.

(** Rebuilding a dictionary from its own items gives it back. *)
Lemma od_of_items_wf d : wf d → of_items d = d.
Proof. intros Hwf. unfold of_items. by rewrite od_of_items_acc. Qed.

End od_facts.

(** ** Facts about LRUCache *)

Section cache_facts.
Import OrderedDict.
Implicit Types (c : LRUCache) (k : key) (v : Z).

Lemma od_contains_false d k : contains d k = false ↔ lookup d k = None.
Proof. unfold contains. destruct (lookup d k); split; congruence. Qed.

Lemma od_lookup_tail_None d k : lookup d k = None → lookup (tail d) k = None.
Proof.
  destruct d as [|[k' v'] d]; [done |]. simpl.
  by destruct (decide (k' = k)).
Qed.

Lemma od_wf_lookup d k v : wf d → (k, v) ∈ d → lookup d k = Some v.
Proof.
  unfold wf, keys. induction d as [|[k' v'] d IH]; intros Hwf Hin.
  - by apply elem_of_nil in Hin.
  - rewrite fmap_cons in Hwf. apply NoDup_cons in Hwf as [Hk' Hd].
    apply elem_of_cons in Hin as [[= -> ->]|Hin]; simpl.
    + by rewrite decide_True.
    + destruct (decide (k' = k)) as [->|Hne]; [| by apply IH].
      destruct Hk'. apply list_elem_of_fmap. by exists (k, v).
Qed.

(** What [put] leaves in the dictionary: the key is moved (or added) to
    the most recent end, then the oldest entry goes if the capacity is
    exceeded. *)
Lemma put_data c k v :
  _data (LRUCache_put c k v) =
    let d2 := remove (_data c) k ++ [(k, v)] in
    if capacity c <? Z.of_nat (length d2) then tail d2 else d2.
Proof.
  unfold LRUCache_put, popitem_first. cbn [_data capacity].
  assert ((if contains (_data c) k then remove (_data c) k else _data c)
          = remove (_data c) k) as ->.
  { destruct (contains (_data c) k) eqn:E; [done |].
    symmetry. by apply od_remove_fresh, od_contains_false. }
  by rewrite od_setitem_remove.
Qed.

Lemma put_capacity c k v : capacity (LRUCache_put c k v) = capacity c.
Proof. done. Qed.

Lemma get_capacity c k : capacity (LRUCache_get c k).2 = capacity c.
Proof. unfold LRUCache_get. by destruct (lookup (_data c) k). Qed.

Lemma get_miss c k : lookup (_data c) k = None → LRUCache_get c k = (-1, c).
Proof. unfold LRUCache_get. by intros ->. Qed.

(** A hit returns the stored value and moves the key to the most recent
    end. *)
Lemma get_hit c k v :
  lookup (_data c) k = Some v →
  LRUCache_get c k =
    (v, {| capacity := capacity c; _data := remove (_data c) k ++ [(k, v)] |}).
Proof. unfold LRUCache_get. intros ->. by rewrite od_setitem_remove. Qed.

Lemma length_remove_le d k : (length (remove d k) ≤ length d)%nat.
Proof. apply length_filter. Qed.

Lemma length_remove_lt d k v :
  lookup d k = Some v → (length (remove d k) < length d)%nat.
Proof.
  intros H. apply (length_filter_lt _ _ (k, v)).
  - by apply od_lookup_Some_elem.
  - intros Hne. by apply Hne.
Qed.

Lemma put_len_bound c k v :
  LRUCache_len c <= capacity c →
  LRUCache_len (LRUCache_put c k v) <= capacity c.
Proof.
  unfold LRUCache_len. intros Hc. rewrite put_data. cbn zeta.
  pose proof (length_remove_le (_data c) k) as Hle.
  destruct (Z.ltb_spec (capacity c)
              (Z.of_nat (length (remove (_data c) k ++ [(k, v)])))) as [Hlt|Hge].
  - rewrite length_app in Hlt. simpl in Hlt.
    destruct (remove (_data c) k) as [|e d'];
      simpl in *; rewrite ?length_app; simpl; lia.
  - lia.
Qed.

Lemma get_len_bound c k : LRUCache_len (LRUCache_get c k).2 <= LRUCache_len c.
Proof.
  unfold LRUCache_len. destruct (lookup (_data c) k) as [v|] eqn:E.
  - rewrite (get_hit _ _ _ E). cbn [snd _data]. rewrite length_app. simpl.
    pose proof (length_remove_lt _ _ _ E). lia.
  - rewrite (get_miss _ _ E). simpl. lia.
Qed.

Lemma run_ops_capacity ops c : capacity (run_ops c ops) = capacity c.
Proof.
  unfold run_ops. revert c. induction ops as [|op ops IH]; intros c; [done |].
  simpl. rewrite IH. destruct op; [apply put_capacity | apply get_capacity].
Qed.

Lemma run_ops_len_bound ops c :
  LRUCache_len c <= capacity c →
  LRUCache_len (run_ops c ops) <= capacity c.
Proof.
  unfold run_ops. revert c. induction ops as [|op ops IH]; intros c Hc; [done |].
  simpl. destruct op as [k v|k]; simpl.
  - rewrite <- (put_capacity c k v). apply IH. rewrite put_capacity.
    by apply put_len_bound.
  - rewrite <- (get_capacity c k). apply IH. rewrite get_capacity.
    pose proof (get_len_bound c k). lia.
Qed.

(** Putting a new key into a full cache drops the oldest entry and
    nothing else. *)
Lemma put_full_evicts_oldest c k v :
  1 <= capacity c →
  lookup (_data c) k = None →
  LRUCache_len c = capacity c →
  ∃ lru rest,
    _data c = lru :: rest ∧ _data (LRUCache_put c k v) = rest ++ [(k, v)].
Proof.
  unfold LRUCache_len. intros HC Hk Hfull. rewrite put_data. cbn zeta.
  rewrite (od_remove_fresh _ _ Hk).
  destruct (_data c) as [|lru rest] eqn:E; simpl in Hfull; [lia |].
  exists lru, rest. split; [done |].
  rewrite length_app. simpl length.
  destruct (Z.ltb_spec (capacity c) (Z.of_nat (S (length rest) + 1)));
    [done | lia].
Qed.

(** While there is room, putting fresh keys only appends. *)
Lemma put_all_fits (C : Z) (entries d : OrderedDict.t) :
  wf (d ++ entries) →
  Z.of_nat (length (d ++ entries)) <= C →
  foldl (λ c e, LRUCache_put c e.1 e.2)
    {| capacity := C; _data := d |} entries
  = {| capacity := C; _data := d ++ entries |}.
Proof.
  revert d. induction entries as [|[k v] entries IH]; intros d Hwf Hlen.
  - simpl. by rewrite app_nil_r.
  - cbn [foldl fst snd].
    assert (lookup d k = None) as Hk.
    { apply od_lookup_None. unfold wf, keys in Hwf.
      rewrite fmap_app in Hwf. apply NoDup_app in Hwf as (_ & Hdisj & _).
      intros Hin. apply (Hdisj _ Hin). rewrite fmap_cons. apply list_elem_of_here. }
    assert (LRUCache_put {| capacity := C; _data := d |} k v
            = {| capacity := C; _data := d ++ [(k, v)] |}) as ->.
    { pose proof (put_data {| capacity := C; _data := d |} k v) as Hp.
      cbn [_data capacity] in Hp. cbn zeta in Hp.
      rewrite (od_remove_fresh _ _ Hk) in Hp.
      rewrite length_app in *. simpl length in *.
      destruct (Z.ltb_spec C (Z.of_nat (length d + 1))); [lia |].
      destruct (LRUCache_put _ k v) as [C' d'] eqn:E.
      pose proof (put_capacity {| capacity := C; _data := d |} k v) as HC'.
      rewrite E in HC'. simpl in *. by subst. }
    rewrite IH; rewrite <- app_assoc; done.
Qed.

End cache_facts.

(** ** Facts about the array model *)

Section array_facts.
Implicit Types (xs : list Z) (i l r v : Z).

(** An index of [0, n) is written as it is. *)
Lemma setitem_in_range xs i v :
  0 <= i < Z.of_nat (length xs) →
  PyList.setitem xs i v = Ok (<[Z.to_nat i := v]> xs).
Proof.
  intros Hi. unfold PyList.setitem.
  destruct (Z.ltb_spec i 0); [lia |].
  destruct (Z.leb_spec 0 i); [| lia].
  destruct (Z.ltb_spec i (Z.of_nat (length xs))); [done | lia].
Qed.

(** An index of [-n, 0) is accepted too and counts from the end. *)
Lemma setitem_negative xs i v :
  - Z.of_nat (length xs) <= i < 0 →
  PyList.setitem xs i v = Ok (<[Z.to_nat (i + Z.of_nat (length xs)) := v]> xs).
Proof.
  intros Hi. unfold PyList.setitem.
  destruct (Z.ltb_spec i 0); [| lia].
  destruct (Z.leb_spec 0 (i + Z.of_nat (length xs))); [| lia].
  destruct (Z.ltb_spec (i + Z.of_nat (length xs)) (Z.of_nat (length xs)));
    [done | lia].
Qed.

Lemma setitem_out_of_range xs i v :
  i < - Z.of_nat (length xs) ∨ Z.of_nat (length xs) <= i →
  PyList.setitem xs i v = Raise IndexError.
Proof.
  intros Hi. unfold PyList.setitem.
  destruct (Z.ltb_spec i 0).
  - destruct (Z.leb_spec 0 (i + Z.of_nat (length xs))); [lia | done].
  - destruct (Z.leb_spec 0 i); [| lia].
    destruct (Z.ltb_spec i (Z.of_nat (length xs))); [lia | done].
Qed.

(** For a range inside the array the slice is the plain segment. *)
Lemma slice_in_range xs l r :
  0 <= l <= r ∧ r < Z.of_nat (length xs) →
  PyList.slice xs l (r + 1) =
    take (Z.to_nat (r + 1 - l)) (drop (Z.to_nat l) xs).
Proof.
  intros Hlr. unfold PyList.slice, PyList.slice_bound.
  destruct (Z.ltb_spec l 0); [lia |].
  destruct (Z.ltb_spec (r + 1) 0); [lia |].
  by rewrite !Z.min_l by lia.
Qed.

(** A write outside [l, r] leaves the slice for (l, r) as it was. *)
Lemma slice_insert_outside xs l r i v :
  0 <= l <= r ∧ r < Z.of_nat (length xs) →
  0 <= i →
  i < l ∨ r < i →
  PyList.slice (<[Z.to_nat i := v]> xs) l (r + 1) = PyList.slice xs l (r + 1).
Proof.
  intros Hlr Hi Hout.
  rewrite !slice_in_range by (rewrite ?length_insert; done).
  destruct Hout as [Hlt|Hgt].
  - rewrite drop_insert_lt by lia. done.
  - rewrite drop_insert_ge by lia. rewrite take_insert_ge by lia. done.
Qed.

Lemma covers_spec i l r : covers i (l, r) = true ↔ l <= i <= r.
Proof.
  unfold covers. simpl. rewrite andb_true_iff, !Z.leb_le. done.
Qed.

Lemma covers_false i l r : covers i (l, r) = false ↔ i < l ∨ r < i.
Proof.
  destruct (covers i (l, r)) eqn:E.
  - apply covers_spec in E. split; [done | lia].
  - split; [intros _ | done].
    destruct (decide (l <= i <= r)) as [H|H]; [| lia].
    apply covers_spec in H. congruence.
Qed.

End array_facts.

(** ** The invalidation sweep *)

Section sweep_facts.
Import OrderedDict.

Lemma filter_ext_elem {A} (P Q : A → Prop)
    `{!∀ x, Decision (P x)} `{!∀ x, Decision (Q x)} (xs : list A) :
  (∀ x, x ∈ xs → P x ↔ Q x) → filter P xs = filter Q xs.
Proof.
  induction xs as [|x xs IH]; intros Hext; [done |].
  rewrite !filter_cons.
  assert (P x ↔ Q x) as Hx by (apply Hext, list_elem_of_here).
  rewrite IH by (intros y Hy; apply Hext, list_elem_of_further, Hy).
  destruct (decide (P x)), (decide (Q x)); tauto.
Qed.

Lemma filter_all_elem {A} (P : A → Prop) `{!∀ x, Decision (P x)} (xs : list A) :
  (∀ x, x ∈ xs → P x) → filter P xs = xs.
Proof.
  induction xs as [|x xs IH]; intros Hall; [done |].
  rewrite filter_cons_True by apply Hall, list_elem_of_here.
  by rewrite IH by (intros y Hy; apply Hall, list_elem_of_further, Hy).
Qed.

(** On a well-formed store and an index of [0, N), the update writes the
    cell and keeps, in order, exactly the entries whose range does not
    contain the index. *)
Lemma update_with_cache_sweep array index value cache :
  wf (_data cache) →
  0 <= index < Z.of_nat (length array) →
  update_with_cache array index value cache =
    (Ok tt, (<[Z.to_nat index := value]> array,
             {| capacity := capacity cache;
                _data := filter (λ e, ¬ covers index e.1) (_data cache) |})).
Proof.
  intros Hwf Hi. unfold update_with_cache.
  rewrite (setitem_in_range _ _ _ Hi). cbn zeta.
  destruct (filter (λ k, covers index k) (LRUCache_keys cache))
    as [|k0 ks] eqn:E.
  - rewrite filter_all_elem; [by destruct cache |].
    intros [k v] Hin Hc. simpl in Hc.
    eapply (filter_nil_not_elem_of _ _ k); [exact E | exact Hc |].
    unfold LRUCache_keys, keys. apply list_elem_of_fmap. by exists (k, v).
  - rewrite <- E. rewrite od_of_items_wf by by apply od_wf_filter.
    do 3 f_equal. apply filter_ext_elem.
    intros [k v] Hin. simpl. rewrite list_elem_of_filter.
    split.
    + intros Hn Hc. apply Hn. split; [done |].
      unfold LRUCache_keys, keys. apply list_elem_of_fmap. by exists (k, v).
    + intros Hn [Hc _]. by apply Hn.
Qed.

End sweep_facts.

(** ** The store stays a dictionary *)

Section wf_facts.
Import OrderedDict.
Implicit Types (c : LRUCache) (k : key) (v : Z).

Lemma wf_remove_snoc d k v : wf d → wf (remove d k ++ [(k, v)]).
Proof.
  intros Hwf. apply od_wf_snoc; [by apply od_wf_filter |].
  apply od_lookup_remove_eq.
Qed.

Lemma put_wf c k v : wf (_data c) → wf (_data (LRUCache_put c k v)).
Proof.
  intros Hwf. rewrite put_data. cbn zeta.
  pose proof (wf_remove_snoc _ k v Hwf) as Hwf'.
  destruct (capacity c <? _); [by apply od_wf_tail | done].
Qed.

Lemma get_wf c k : wf (_data c) → wf (_data (LRUCache_get c k).2).
Proof.
  intros Hwf. destruct (lookup (_data c) k) as [v|] eqn:E.
  - rewrite (get_hit _ _ _ E). by apply wf_remove_snoc.
  - by rewrite (get_miss _ _ E).
Qed.

Lemma run_ops_wf ops c : wf (_data c) → wf (_data (run_ops c ops)).
Proof.
  unfold run_ops. revert c. induction ops as [|op ops IH]; intros c Hwf; [done |].
  simpl. apply IH. destruct op; [by apply put_wf | by apply get_wf].
Qed.

(** Every entry left by [put] was there before or is the one put. *)
Lemma put_elem c k v e :
  e ∈ _data (LRUCache_put c k v) → e ∈ _data c ∨ e = (k, v).
Proof.
  rewrite put_data. cbn zeta. intros He.
  assert (e ∈ remove (_data c) k ++ [(k, v)]) as Hin.
  { destruct (capacity c <? _); [| done].
    destruct (remove (_data c) k ++ [(k, v)]); [done |].
    by apply list_elem_of_further. }
  apply elem_of_app in Hin as [Hin|Hin].
  - left. by apply list_elem_of_filter in Hin as [_ Hin].
  - right. by apply list_elem_of_singleton in Hin.
Qed.

(** [get] stores nothing new. *)
Lemma get_elem c k e : e ∈ _data (LRUCache_get c k).2 → e ∈ _data c.
Proof.
  destruct (lookup (_data c) k) as [v|] eqn:E.
  - rewrite (get_hit _ _ _ E). cbn [snd _data]. intros Hin.
    apply elem_of_app in Hin as [Hin|Hin].
    + by apply list_elem_of_filter in Hin as [_ Hin].
    + apply list_elem_of_singleton in Hin as ->. by apply od_lookup_Some_elem.
  - by rewrite (get_miss _ _ E).
Qed.

End wf_facts.

(** ** The cache never goes stale *)

Section soundness.
Import OrderedDict.

Lemma cache_sound_put array cache l r :
  0 <= l <= r ∧ r < Z.of_nat (length array) →
  cache_sound array cache →
  cache_sound array
    (LRUCache_put cache (l, r) (PyList.sum (PyList.slice array l (r + 1)))).
Proof.
  intros Hlr Hs l' r' v' Hin. apply put_elem in Hin as [Hin|[= -> -> ->]].
  - by apply Hs.
  - done.
Qed.

Lemma cache_sound_get array cache k :
  cache_sound array cache → cache_sound array (LRUCache_get cache k).2.
Proof. intros Hs l r v Hin. apply Hs. by apply get_elem in Hin. Qed.

(** The cached range sum answers with the sum the array has now, and
    keeps the store a sound dictionary. *)
Lemma range_sum_with_cache_sound array cache l r :
  0 <= l <= r ∧ r < Z.of_nat (length array) →
  wf (_data cache) →
  cache_sound array cache →
  ∃ cache',
    range_sum_with_cache array l r cache =
      (Ok (PyList.sum (PyList.slice array l (r + 1))), cache') ∧
    wf (_data cache') ∧ cache_sound array cache'.
Proof.
  intros Hlr Hwf Hs. unfold range_sum_with_cache.
  pose proof (get_wf cache (l, r) Hwf) as Hwf1.
  pose proof (cache_sound_get array cache (l, r) Hs) as Hs1.
  assert ((LRUCache_get cache (l, r)).1 = -1 ∨
          (LRUCache_get cache (l, r)).1 =
            PyList.sum (PyList.slice array l (r + 1))) as Hval.
  { destruct (lookup (_data cache) (l, r)) as [v|] eqn:E.
    - right. rewrite (get_hit _ _ _ E). simpl.
      by apply od_lookup_Some_elem, Hs in E as [_ ->].
    - left. by rewrite (get_miss _ _ E). }
  destruct (LRUCache_get cache (l, r)) as [cached cache1].
  cbn [fst snd] in *.
  destruct (Z.eqb_spec cached (-1)) as [Heq|Hne]; cbn [negb].
  - eexists. split; [done |]. split; [by apply put_wf |].
    by apply cache_sound_put.
  - destruct Hval as [?| ->]; [done |]. by exists cache1.
Qed.

(** An update inside the array keeps the store a sound dictionary for
    the array as written. *)
Lemma update_with_cache_sound array index value cache :
  0 <= index < Z.of_nat (length array) →
  wf (_data cache) →
  cache_sound array cache →
  ∃ cache',
    update_with_cache array index value cache =
      (Ok tt, (<[Z.to_nat index := value]> array, cache')) ∧
    wf (_data cache') ∧
    cache_sound (<[Z.to_nat index := value]> array) cache'.
Proof.
  intros Hi Hwf Hs. rewrite (update_with_cache_sweep _ _ _ _ Hwf Hi).
  eexists. split; [done |]. cbn [_data]. split; [by apply od_wf_filter |].
  intros l r v Hin. apply list_elem_of_filter in Hin as [Hnc Hin].
  simpl in Hnc. apply Hs in Hin as [Hlr ->].
  rewrite length_insert. split; [done |].
  rewrite slice_insert_outside; [done | done | lia |].
  apply covers_false. by destruct (covers index (l, r)).
Qed.

(** The two loops, run from the same array, return the same values and
    leave the same array. *)
Lemma loops_agree queries : ∀ array cache,
  Forall (valid_query (Z.of_nat (length array))) queries →
  wf (_data cache) →
  cache_sound array cache →
  ∃ vals array' cache',
    loop_with_cache array cache queries = (Ok vals, (array', cache')) ∧
    loop_no_cache array queries = (Ok vals, array').
Proof.
  induction queries as [|q queries IH]; intros array cache Hq Hwf Hs.
  - by exists [], array, cache.
  - apply Forall_cons in Hq as [Hq Hqs]. destruct q as [l r|idx val].
    + destruct (range_sum_with_cache_sound array cache l r Hq Hwf Hs)
        as (cache1 & Hrun & Hwf1 & Hs1).
      destruct (IH array cache1 Hqs Hwf1 Hs1) as (vals & array' & cache' & H1 & H2).
      exists (PyList.sum (PyList.slice array l (r + 1)) :: vals), array', cache'.
      cbn [loop_with_cache loop_no_cache]. unfold range_sum_no_cache.
      by rewrite Hrun, H1, H2.
    + destruct (update_with_cache_sound array idx val cache Hq Hwf Hs)
        as (cache1 & Hrun & Hwf1 & Hs1).
      assert (Forall (valid_query (Z.of_nat
                (length (<[Z.to_nat idx := val]> array)))) queries) as Hqs'
        by by rewrite length_insert.
      destruct (IH _ cache1 Hqs' Hwf1 Hs1) as (vals & array' & cache' & H1 & H2).
      exists vals, array', cache'.
      cbn [loop_with_cache loop_no_cache]. unfold update_no_cache.
      rewrite Hrun. simpl in Hq. by rewrite (setitem_in_range _ _ _ Hq).
Qed.

End soundness.

(** ** What [put] leaves under the key it was given *)

Section put_lookup.
Import OrderedDict.
Implicit Types (c : LRUCache) (k : key) (v : Z).

(** With room for at least one entry, the key just put is stored. *)
Lemma put_lookup_same c k v :
  1 <= capacity c → lookup (_data (LRUCache_put c k v)) k = Some v.
Proof.
  intros HC. rewrite put_data. cbn zeta.
  pose proof (od_lookup_remove_eq (_data c) k) as Hk.
  destruct (Z.ltb_spec (capacity c)
              (Z.of_nat (length (remove (_data c) k ++ [(k, v)])))) as [Hlt|Hge].
  - rewrite length_app in Hlt. simpl in Hlt.
    destruct (remove (_data c) k) as [|e d']; simpl in Hlt; [lia |].
    simpl. apply od_lookup_snoc_eq.
    apply (od_lookup_tail_None (e :: d') k Hk).
  - by apply od_lookup_snoc_eq.
Qed.

(** Whatever the capacity, the key just put is stored with the value
    put, or not stored at all. *)
Lemma put_lookup_cases c k v :
  lookup (_data (LRUCache_put c k v)) k = Some v ∨
  lookup (_data (LRUCache_put c k v)) k = None.
Proof.
  rewrite put_data. cbn zeta.
  pose proof (od_lookup_remove_eq (_data c) k) as Hk.
  destruct (capacity c <? _).
  - destruct (remove (_data c) k) as [|e d']; simpl; [by right |].
    left. apply od_lookup_snoc_eq.
    apply (od_lookup_tail_None (e :: d') k Hk).
  - left. by apply od_lookup_snoc_eq.
Qed.

(** After a hit the key is still stored, with the same value. *)
Lemma get_hit_lookup c k v :
  lookup (_data c) k = Some v → lookup (_data (LRUCache_get c k).2) k = Some v.
Proof.
  intros E. rewrite (get_hit _ _ _ E). cbn [snd _data].
  apply od_lookup_snoc_eq, od_lookup_remove_eq.
Qed.

(** A stored value other than -1 is a hit, answered from the store
    alone. *)
Lemma range_sum_with_cache_hit array c l r v :
  lookup (_data c) (l, r) = Some v → v ≠ -1 →
  range_sum_with_cache array l r c = (Ok v, (LRUCache_get c (l, r)).2).
Proof.
  intros E Hv. unfold range_sum_with_cache. rewrite (get_hit _ _ _ E).
  cbn [snd]. by destruct (Z.eqb_spec v (-1)).
Qed.

(** A missing key, or a stored -1, takes the miss branch: the slice is
    summed and put. *)
Lemma range_sum_with_cache_miss array c l r :
  (LRUCache_get c (l, r)).1 = -1 →
  range_sum_with_cache array l r c =
    (Ok (PyList.sum (PyList.slice array l (r + 1))),
     LRUCache_put (LRUCache_get c (l, r)).2 (l, r)
       (PyList.sum (PyList.slice array l (r + 1)))).
Proof.
  intros E. unfold range_sum_with_cache.
  destruct (LRUCache_get c (l, r)) as [cached c1]. simpl in E. by subst.
Qed.

Lemma get_fst_cases c k :
  (lookup (_data c) k = None ∧ (LRUCache_get c k).1 = -1) ∨
  (∃ v, lookup (_data c) k = Some v ∧ (LRUCache_get c k).1 = v).
Proof.
  destruct (lookup (_data c) k) as [v|] eqn:E.
  - right. exists v. by rewrite (get_hit _ _ _ E).
  - left. by rewrite (get_miss _ _ E).
Qed.

(** With room for at least one entry, the key just put is the most recent
    entry. *)
Lemma put_last c k v :
  1 <= capacity c → last (_data (LRUCache_put c k v)) = Some (k, v).
Proof.
  intros HC. rewrite put_data. cbn zeta.
  destruct (Z.ltb_spec (capacity c)
              (Z.of_nat (length (remove (_data c) k ++ [(k, v)])))) as [Hlt|Hge];
    [| apply last_snoc].
  rewrite length_app in Hlt. simpl in Hlt.
  destruct (remove (_data c) k) as [|e d']; simpl in Hlt; [lia |].
  simpl. apply last_snoc.
Qed.

End put_lookup.

(** * The claims *)

(** ** Construction *)

(** C8 (as stated, refuted). The claim has construction fail for a
    capacity below 1. [LRUCache(0)] returns normally: a cache instance with
    capacity 0 and an empty store. *)
Lemma init_capacity_zero_succeeds :
  0 < 1 ∧
  LRUCache_init 0 = Ok {| capacity := 0; _data := [] |} ∧
  is_ok (LRUCache_init 0) = true.
Proof. split; [lia | split; reflexivity]. Qed.

(** C8 (amended). Construction validates nothing: for every integer
    capacity, below 1 or not, it succeeds and yields a cache with that
    capacity and an empty store. *)
Theorem init_always_succeeds (C : Z) :
  ∃ cache,
    LRUCache_init C = Ok cache ∧
    capacity cache = C ∧ _data cache = [] ∧ LRUCache_len cache = 0.
Proof. eexists. repeat split. Qed.

(** ** The store *)

(** C3. For a cache built with capacity C >= 1 and any sequence of puts and
    gets, the store never holds more than C entries. For any store of
    capacity C that holds C entries, putting a new key evicts exactly one
    entry, the one at the head of the store: the others keep their order,
    the new key is appended and the size is C again. The head is the least
    recently used entry, because every hit of [get] and every [put] moves
    the key it touches to the other end. *)
Theorem capacity_invariant (C : Z) (ops : list cache_op) (c0 : LRUCache) :
  1 <= C →
  LRUCache_init C = Ok c0 →
  LRUCache_len (run_ops c0 ops) <= C ∧
  (∀ c k v,
     capacity c = C →
     LRUCache_len c = C →
     OrderedDict.contains (_data c) k = false →
     ∃ lru rest,
       _data c = lru :: rest ∧
       _data (LRUCache_put c k v) = rest ++ [(k, v)] ∧
       LRUCache_len (LRUCache_put c k v) = C ∧
       capacity (LRUCache_put c k v) = C) ∧
  (∀ c k v,
     OrderedDict.lookup (_data c) k = Some v →
     (LRUCache_get c k).1 = v ∧
     last (_data (LRUCache_get c k).2) = Some (k, v)) ∧
  (∀ c k v,
     capacity c = C →
     last (_data (LRUCache_put c k v)) = Some (k, v)).
Proof.
  intros HC [= <-]. split; [| split; [| split]].
  - pose proof (run_ops_len_bound ops {| capacity := C; _data := [] |}) as H.
    cbn [capacity] in H. apply H. unfold LRUCache_len. simpl. lia.
  - intros c k v Hcap Hfull Hk. apply od_contains_false in Hk.
    destruct (put_full_evicts_oldest c k v ltac:(lia) Hk ltac:(lia))
      as (lru & rest & Hd & Hp).
    exists lru, rest. split; [done |]. split; [done |].
    split; [| by rewrite put_capacity].
    unfold LRUCache_len in *. rewrite Hp, length_app. rewrite Hd in Hfull.
    simpl in *. lia.
  - intros c k v Hk. rewrite (get_hit _ _ _ Hk). cbn [fst snd _data].
    split; [done | apply last_snoc].
  - intros c k v Hcap. apply put_last. lia.
Qed.

Lemma capacity_invariant_witness :
  let c := run_ops {| capacity := 2; _data := [] |}
             [Put (0, 4) 5; Put (5, 9) 5; Get (0, 4)] in
  LRUCache_len c <= 2 ∧
  (∃ lru rest,
     _data c = lru :: rest ∧
     _data (LRUCache_put c (0, 2) 3) = rest ++ [((0, 2), 3)] ∧
     LRUCache_len (LRUCache_put c (0, 2) 3) = 2 ∧
     capacity (LRUCache_put c (0, 2) 3) = 2) ∧
  ((LRUCache_get c (5, 9)).1 = 5 ∧
   last (_data (LRUCache_get c (5, 9)).2) = Some ((5, 9), 5)) ∧
  last (_data (LRUCache_put c (0, 2) 3)) = Some ((0, 2), 3).
Proof.
  destruct (capacity_invariant 2 [Put (0, 4) 5; Put (5, 9) 5; Get (0, 4)]
              {| capacity := 2; _data := [] |} ltac:(lia) eq_refl)
    as (Hlen & Hevict & Hget & Hput).
  split; [exact Hlen |].
  split; [apply Hevict; reflexivity |].
  split; [apply Hget; reflexivity | apply Hput; reflexivity].
Defined.

(** The store the eviction is shown on above, and what the put leaves:
    (5, 9), the entry not touched since it was put, is the one that
    goes. *)
Example full_store_eviction_run :
  _data (run_ops {| capacity := 2; _data := [] |}
           [Put (0, 4) 5; Put (5, 9) 5; Get (0, 4)])
    = [((5, 9), 5); ((0, 4), 5)] ∧
  _data (LRUCache_put
           (run_ops {| capacity := 2; _data := [] |}
              [Put (0, 4) 5; Put (5, 9) 5; Get (0, 4)]) (0, 2) 3)
    = [((0, 4), 5); ((0, 2), 3)].
Proof. split; reflexivity. Qed.

(** C5. In a cache built empty with capacity C >= 1, after C+1 entries
    with distinct keys are put in order (and nothing is got in between),
    the first key is absent and every later key is present with the value
    put for it; the store holds exactly the later entries, in order. *)
Theorem lru_evicts_first (C : Z) (c0 : LRUCache) (entries : list (key * Z)) :
  1 <= C →
  LRUCache_init C = Ok c0 →
  NoDup entries.*1 →
  Z.of_nat (length entries) = C + 1 →
  let c := foldl (λ c e, LRUCache_put c e.1 e.2) c0 entries in
  ∃ first rest,
    entries = first :: rest ∧
    OrderedDict.contains (_data c) first.1 = false ∧
    (∀ e, e ∈ rest → OrderedDict.contains (_data c) e.1 = true ∧
                     OrderedDict.lookup (_data c) e.1 = Some e.2) ∧
    _data c = rest.
Proof.
  intros HC [= <-] Hnd Hlen c.
  destruct (decide (entries = [])) as [->|Hne]; [simpl in Hlen; lia |].
  destruct (exists_last Hne) as (front & [k v] & Hsplit).
  assert (Z.of_nat (length front) = C) as Hfront.
  { rewrite Hsplit, length_app in Hlen. simpl in Hlen. lia. }
  assert (OrderedDict.wf front ∧ OrderedDict.lookup front k = None) as [Hwf Hk].
  { rewrite Hsplit, fmap_app in Hnd. apply NoDup_app in Hnd as (Hf & Hdisj & _).
    split; [done |]. apply od_lookup_None. intros Hin.
    apply (Hdisj _ Hin). cbn. apply list_elem_of_here. }
  assert (_data c = tail entries) as Hdata.
  { subst c. rewrite Hsplit, foldl_snoc. cbn [fst snd].
    pose proof (put_all_fits C front []) as Hfits. cbn [app] in Hfits.
    rewrite Hfits by (done || lia).
    rewrite put_data. cbn [capacity _data]. cbn zeta.
    rewrite (od_remove_fresh _ _ Hk), length_app. simpl length.
    destruct (Z.ltb_spec C (Z.of_nat (length front + 1))); [done | lia]. }
  destruct entries as [|first rest]; [done |].
  exists first, rest. simpl in Hdata. rewrite Hdata.
  rewrite fmap_cons in Hnd. apply NoDup_cons in Hnd as [Hfirst Hrest].
  repeat split.
  - apply od_contains_false, od_lookup_None. exact Hfirst.
  - unfold OrderedDict.contains.
    rewrite (od_wf_lookup rest e.1 e.2 Hrest); [done | by destruct e].
  - apply od_wf_lookup; [done | by destruct e].
Qed.

Lemma lru_evicts_first_witness :
  let c := foldl (λ c e, LRUCache_put c e.1 e.2)
             {| capacity := 2; _data := [] |}
             [((0, 4), 5); ((5, 9), 5); ((0, 2), 3)] in
  ∃ first rest,
    [((0, 4), 5); ((5, 9), 5); ((0, 2), 3)] = first :: rest ∧
    OrderedDict.contains (_data c) first.1 = false ∧
    (∀ e, e ∈ rest → OrderedDict.contains (_data c) e.1 = true ∧
                     OrderedDict.lookup (_data c) e.1 = Some e.2) ∧
    _data c = rest.
Proof.
  apply (lru_evicts_first 2 {| capacity := 2; _data := [] |}
           [((0, 4), 5); ((5, 9), 5); ((0, 2), 3)]);
    [lia | reflexivity | | reflexivity].
  refine (bool_decide_unpack _ _). vm_compute. exact I.
Defined.

(** C9 (as stated, refuted). The claim ranges over every cache state. A
    cache of capacity 0 evicts the key it has just been given: [put((0,0),
    5)] leaves the store empty and [get((0,0))] answers -1, not 5. *)
Lemma put_get_capacity_zero :
  _data (LRUCache_put {| capacity := 0; _data := [] |} (0, 0) 5) = [] ∧
  (LRUCache_get (LRUCache_put {| capacity := 0; _data := [] |} (0, 0) 5)
     (0, 0)).1 = -1.
Proof. split; reflexivity. Qed.

(** C9 (amended). For every cache state with capacity at least 1, every
    key k and every integer v: immediately after [put(k, v)], [get(k)]
    returns v. *)
Theorem put_get_roundtrip (c : LRUCache) (k : key) (v : Z) :
  1 <= capacity c →
  (LRUCache_get (LRUCache_put c k v) k).1 = v.
Proof.
  intros HC. by rewrite (get_hit _ _ _ (put_lookup_same c k v HC)).
Qed.

Lemma put_get_roundtrip_witness :
  (LRUCache_get
     (LRUCache_put {| capacity := 1; _data := [((0, 4), 5)] |} (5, 9) 7)
     (5, 9)).1 = 7.
Proof.
  apply (put_get_roundtrip {| capacity := 1; _data := [((0, 4), 5)] |}
           (5, 9) 7).
  simpl. lia.
Defined.

(** ** The query path *)

(** C4 (as stated, refuted). On the array [-1] a first call for (0, 0)
    stores the sum -1 under the key. The key is then present, yet the next
    call is not a hit: -1 is what [get] answers for a missing key, so the
    call sums the array again, and on another array it returns 5 rather
    than the stored -1. *)
Lemma stored_minus_one_is_a_miss :
  range_sum_with_cache [-1] 0 0 {| capacity := 2; _data := [] |}
    = (Ok (-1), {| capacity := 2; _data := [((0, 0), -1)] |}) ∧
  OrderedDict.lookup [((0, 0), -1)] (0, 0) = Some (-1) ∧
  cache_hit {| capacity := 2; _data := [((0, 0), -1)] |} (0, 0) = false ∧
  (range_sum_with_cache [5] 0 0
     {| capacity := 2; _data := [((0, 0), -1)] |}).1 = Ok 5.
Proof. repeat split; reflexivity. Qed.

(** C4 (amended). For every cache state in which key (l, r) is present
    with a stored value v other than -1, a range-sum query for (l, r) is a
    hit and returns v whatever the backing array holds: the sum is not
    recomputed and the array is not read. Two consecutive range-sum calls
    for the same (l, r) on the same array return the same value; when the
    capacity is at least 1 and that value is not -1, the second call is a
    hit. *)
Theorem range_sum_hit_behaviour :
  (∀ cache l r v,
     OrderedDict.lookup (_data cache) (l, r) = Some v → v ≠ -1 →
     cache_hit cache (l, r) = true ∧
     ∀ array,
       range_sum_with_cache array l r cache =
         (Ok v, (LRUCache_get cache (l, r)).2)) ∧
  (∀ array cache l r,
     (range_sum_with_cache array l r
        (range_sum_with_cache array l r cache).2).1
     = (range_sum_with_cache array l r cache).1) ∧
  (∀ array cache l r s cache1,
     1 <= capacity cache →
     range_sum_with_cache array l r cache = (Ok s, cache1) → s ≠ -1 →
     OrderedDict.lookup (_data cache1) (l, r) = Some s ∧
     cache_hit cache1 (l, r) = true).
Proof.
  assert (∀ cache l r v,
            OrderedDict.lookup (_data cache) (l, r) = Some v → v ≠ -1 →
            cache_hit cache (l, r) = true) as Hhit.
  { intros cache l r v E Hv. unfold cache_hit. rewrite (get_hit _ _ _ E).
    cbn [fst]. by destruct (Z.eqb_spec v (-1)). }
  split; [| split].
  - intros cache l r v E Hv. split; [by eapply Hhit |].
    intros array. by apply range_sum_with_cache_hit.
  - intros array cache l r.
    destruct (get_fst_cases cache (l, r)) as [[E Hg]|(v & E & Hg)].
    + rewrite (range_sum_with_cache_miss _ _ _ _ Hg). cbn [fst snd].
      set (s := PyList.sum _). set (c1 := LRUCache_put _ _ _).
      destruct (get_fst_cases c1 (l, r)) as [[E1 Hg1]|(v1 & E1 & Hg1)].
      * by rewrite (range_sum_with_cache_miss _ _ _ _ Hg1).
      * destruct (put_lookup_cases (LRUCache_get cache (l, r)).2 (l, r) s)
          as [E2|E2]; fold c1 in E2; [| congruence].
        assert (v1 = s) as -> by congruence.
        destruct (decide (s = -1)) as [Hs|Hs].
        -- rewrite range_sum_with_cache_miss; [done | congruence].
        -- by rewrite (range_sum_with_cache_hit _ _ _ _ _ E1 Hs).
    + destruct (decide (v = -1)) as [->|Hv].
      * rewrite (range_sum_with_cache_miss _ _ _ _ Hg). cbn [fst snd].
        set (s := PyList.sum _). set (c1 := LRUCache_put _ _ _).
        destruct (put_lookup_cases (LRUCache_get cache (l, r)).2 (l, r) s)
          as [E2|E2]; fold c1 in E2.
        -- destruct (decide (s = -1)) as [Hs|Hs].
           ++ rewrite range_sum_with_cache_miss; [done |].
              by rewrite (get_hit _ _ _ E2).
           ++ by rewrite (range_sum_with_cache_hit _ _ _ _ _ E2 Hs).
        -- rewrite range_sum_with_cache_miss; [done |]. by rewrite (get_miss _ _ E2).
      * rewrite (range_sum_with_cache_hit _ _ _ _ _ E Hv). cbn [fst snd].
        by rewrite (range_sum_with_cache_hit _ _ _ _ _ (get_hit_lookup _ _ _ E) Hv).
  - intros array cache l r s cache1 HC Hrun Hs.
    assert (OrderedDict.lookup (_data cache1) (l, r) = Some s) as E1.
    { destruct (get_fst_cases cache (l, r)) as [[E Hg]|(v & E & Hg)].
      - rewrite (range_sum_with_cache_miss _ _ _ _ Hg) in Hrun.
        injection Hrun as <- <-. apply put_lookup_same.
        by rewrite get_capacity.
      - destruct (decide (v = -1)) as [->|Hv].
        + rewrite (range_sum_with_cache_miss _ _ _ _ Hg) in Hrun.
          injection Hrun as <- <-. apply put_lookup_same.
          by rewrite get_capacity.
        + rewrite (range_sum_with_cache_hit _ _ _ _ _ E Hv) in Hrun.
          injection Hrun as <- <-. by apply get_hit_lookup. }
    split; [done | by eapply Hhit].
Qed.

Lemma range_sum_hit_behaviour_witness :
  cache_hit {| capacity := 2; _data := [((0, 4), 5); ((5, 9), 5)] |} (0, 4)
    = true ∧
  range_sum_with_cache [7; 7] 0 4
    {| capacity := 2; _data := [((0, 4), 5); ((5, 9), 5)] |}
  = (Ok 5,
     (LRUCache_get {| capacity := 2; _data := [((0, 4), 5); ((5, 9), 5)] |}
        (0, 4)).2).
Proof.
  destruct (proj1 range_sum_hit_behaviour
              {| capacity := 2; _data := [((0, 4), 5); ((5, 9), 5)] |}
              0 4 5) as [Hhit Hrun]; [reflexivity | lia |].
  split; [exact Hhit | exact (Hrun [7; 7])].
Defined.

(** C7 (as stated, refuted). The claim has a range with left > right
    rejected with an error and the store untouched. On [1; 2; 3] the call
    for (2, 1) returns 0, the sum of an empty slice, and stores it under
    the key (2, 1). *)
Lemma reversed_range_returns_zero :
  ¬ (0 <= 2 <= 1 ∧ 1 < Z.of_nat (length [1; 2; 3])) ∧
  range_sum_with_cache [1; 2; 3] 2 1 {| capacity := 2; _data := [] |}
    = (Ok 0, {| capacity := 2; _data := [((2, 1), 0)] |}).
Proof. split; [lia | reflexivity]. Qed.

Lemma slice_empty (xs : list Z) (l r : Z) :
  0 <= r < l ∨ Z.of_nat (length xs) <= l →
  PyList.slice xs l (r + 1) = [].
Proof.
  intros H. unfold PyList.slice, PyList.slice_bound.
  destruct (Z.ltb_spec l 0); [lia |].
  destruct H as [H|H].
  - destruct (Z.ltb_spec (r + 1) 0); [lia |].
    replace (Z.to_nat _) with 0%nat by lia. done.
  - rewrite (Z.min_r l) by done. rewrite Nat2Z.id.
    rewrite drop_ge by done. apply take_nil.
Qed.

(** C7 (amended). The range sum validates nothing and never raises: for
    every left and right, inside the array or not, the call returns a
    value and keeps the capacity. On a hit that value is the stored one
    and the store is only reordered; otherwise it is the sum of the Python
    slice array[left:right+1], and the cache afterwards is what
    [put((left, right), sum)] leaves. With a capacity of at least 1 the
    returned value is stored under (left, right) afterwards (with a
    smaller capacity [put] may keep nothing). The slice is empty, so the
    sum is 0, when 0 <= right < left or when left is at or beyond the end
    of the array. The array is only read. *)
Theorem range_sum_validates_nothing
    (array : list Z) (l r : Z) (cache : LRUCache) :
  ∃ s cache',
    range_sum_with_cache array l r cache = (Ok s, cache') ∧
    capacity cache' = capacity cache ∧
    (cache_hit cache (l, r) = true →
       OrderedDict.lookup (_data cache) (l, r) = Some s ∧
       cache' = (LRUCache_get cache (l, r)).2) ∧
    (cache_hit cache (l, r) = false →
       s = PyList.sum (PyList.slice array l (r + 1)) ∧
       cache' = LRUCache_put (LRUCache_get cache (l, r)).2 (l, r) s) ∧
    (1 <= capacity cache →
       OrderedDict.lookup (_data cache') (l, r) = Some s) ∧
    (0 <= r < l ∨ Z.of_nat (length array) <= l →
       PyList.slice array l (r + 1) = [] ∧
       PyList.sum (PyList.slice array l (r + 1)) = 0).
Proof.
  unfold cache_hit.
  destruct (Z.eqb_spec (LRUCache_get cache (l, r)).1 (-1)) as [Hg|Hg]; cbn [negb].
  - eexists _, _. split; [by apply range_sum_with_cache_miss |].
    split; [by rewrite put_capacity, get_capacity |].
    split; [done |]. split; [done |].
    split; [intros HC; apply put_lookup_same; by rewrite get_capacity |].
    intros H. by rewrite (slice_empty _ _ _ H).
  - destruct (get_fst_cases cache (l, r)) as [[E Hg']|(v & E & Hg')];
      [congruence |].
    exists v, (LRUCache_get cache (l, r)).2.
    split; [apply range_sum_with_cache_hit; [done | congruence] |].
    split; [by rewrite get_capacity |].
    split; [done |]. split; [done |].
    split; [intros _; by apply get_hit_lookup |].
    intros H. by rewrite (slice_empty _ _ _ H).
Qed.

Lemma range_sum_validates_nothing_witness :
  ∃ s cache',
    range_sum_with_cache [1; 2; 3] 2 1 {| capacity := 2; _data := [] |}
      = (Ok s, cache') ∧
    s = 0 ∧
    cache' = LRUCache_put {| capacity := 2; _data := [] |} (2, 1) 0 ∧
    OrderedDict.lookup (_data cache') (2, 1) = Some s.
Proof.
  destruct (range_sum_validates_nothing [1; 2; 3] 2 1
              {| capacity := 2; _data := [] |})
    as (s & cache' & Hrun & _ & _ & Hmiss & Hstored & Hempty).
  destruct (Hmiss eq_refl) as [Hs Hc].
  destruct (Hempty ltac:(left; lia)) as [_ Hzero].
  rewrite Hzero in Hs. subst s.
  exists 0, cache'. split; [exact Hrun |]. split; [reflexivity |].
  split; [exact Hc | apply Hstored; simpl; lia].
Defined.

(** With a capacity of 0 the same call still returns 0, and the store is
    empty afterwards: the sum was put and evicted at once. *)
Example reversed_range_capacity_zero :
  range_sum_with_cache [1; 2; 3] 2 1 {| capacity := 0; _data := [] |}
    = (Ok 0, {| capacity := 0; _data := [] |}).
Proof. reflexivity. Qed.

(** ** The update path *)

(** C2. For a store that is a dictionary and an update at an index of
    [0, N): the update returns normally; afterwards no key (l, r) with
    l <= index <= r is in the store; every key (l, r) with index < l or
    r < index is looked up exactly as before (present with the same value
    if it was cached); and the store is the old one with the covering
    entries taken out, so the survivors keep their relative order. *)
Theorem update_exact_invalidation
    (array : list Z) (index value : Z) (cache : LRUCache) :
  OrderedDict.wf (_data cache) →
  0 <= index < Z.of_nat (length array) →
  ∃ array' cache',
    update_with_cache array index value cache = (Ok tt, (array', cache')) ∧
    (∀ l r, l <= index <= r →
       OrderedDict.contains (_data cache') (l, r) = false) ∧
    (∀ l r, index < l ∨ r < index →
       OrderedDict.lookup (_data cache') (l, r)
       = OrderedDict.lookup (_data cache) (l, r)) ∧
    _data cache' = filter (λ e, ¬ (e.1.1 <= index <= e.1.2)) (_data cache) ∧
    sublist (_data cache') (_data cache).
Proof.
  intros Hwf Hi. rewrite (update_with_cache_sweep _ _ _ _ Hwf Hi).
  eexists _, _. split; [done |]. cbn [_data].
  split; [| split; [| split]].
  - intros l r Hlr. apply od_contains_false, od_lookup_filter_drop.
    intros v Hn. apply Hn. simpl. by apply Is_true_true, covers_spec.
  - intros l r Hout. apply od_lookup_filter_keep.
    intros v Hc. simpl in Hc. apply Is_true_true, covers_spec in Hc. lia.
  - apply filter_ext_elem. intros [[l r] v] _. simpl.
    rewrite Is_true_true, covers_spec. done.
  - apply sublist_filter.
Qed.

Lemma update_exact_invalidation_witness :
  ∃ array' cache',
    update_with_cache (replicate 10 1) 1 100
      {| capacity := 2; _data := [((5, 9), 5); ((0, 2), 3)] |}
    = (Ok tt, (array', cache')) ∧
    (∀ l r, l <= 1 <= r →
       OrderedDict.contains (_data cache') (l, r) = false) ∧
    (∀ l r, 1 < l ∨ r < 1 →
       OrderedDict.lookup (_data cache') (l, r)
       = OrderedDict.lookup [((5, 9), 5); ((0, 2), 3)] (l, r)) ∧
    _data cache' = filter (λ e, ¬ (e.1.1 <= 1 <= e.1.2))
                     [((5, 9), 5); ((0, 2), 3)] ∧
    sublist (_data cache') [((5, 9), 5); ((0, 2), 3)].
Proof.
  apply (update_exact_invalidation (replicate 10 1) 1 100
           {| capacity := 2; _data := [((5, 9), 5); ((0, 2), 3)] |}).
  - refine (bool_decide_unpack _ _). vm_compute. exact I.
  - simpl. lia.
Defined.

(** C10. For an update at an index of [0, N) such that no cached key
    (l, r) has l <= index <= r: the update returns normally, the store is
    left as it was (same capacity, same entries, same order), and the
    array changes in one cell only: it keeps its length, holds the new
    value at the index and its old values everywhere else. *)
Theorem update_frame (array : list Z) (index value : Z) (cache : LRUCache) :
  0 <= index < Z.of_nat (length array) →
  (∀ l r, (l, r) ∈ LRUCache_keys cache → ¬ (l <= index <= r)) →
  ∃ array',
    update_with_cache array index value cache = (Ok tt, (array', cache)) ∧
    length array' = length array ∧
    array' !! Z.to_nat index = Some value ∧
    ∀ j, j ≠ Z.to_nat index → array' !! j = array !! j.
Proof.
  intros Hi Hnone. exists (<[Z.to_nat index := value]> array).
  split; [| split; [| split]].
  - unfold update_with_cache. rewrite (setitem_in_range _ _ _ Hi). cbn zeta.
    destruct (filter _ (LRUCache_keys cache)) as [|[l r] ks] eqn:E; [done |].
    assert ((l, r) ∈ filter (λ k, covers index k) (LRUCache_keys cache))
      as Hin by (rewrite E; apply list_elem_of_here).
    apply list_elem_of_filter in Hin as [Hc Hin].
    apply Is_true_true, covers_spec in Hc. destruct (Hnone _ _ Hin Hc).
  - apply length_insert.
  - apply list_lookup_insert_eq. lia.
  - intros j Hj. by apply list_lookup_insert_ne.
Qed.

Lemma update_frame_witness :
  ∃ array',
    update_with_cache [1; 2; 3; 4] 0 9
      {| capacity := 2; _data := [((1, 2), 5); ((2, 3), 7)] |}
    = (Ok tt, (array', {| capacity := 2;
                          _data := [((1, 2), 5); ((2, 3), 7)] |})) ∧
    length array' = length [1; 2; 3; 4] ∧
    array' !! Z.to_nat 0 = Some 9 ∧
    ∀ j, j ≠ Z.to_nat 0 → array' !! j = [1; 2; 3; 4] !! j.
Proof.
  apply (update_frame [1; 2; 3; 4] 0 9
           {| capacity := 2; _data := [((1, 2), 5); ((2, 3), 7)] |}).
  - simpl. lia.
  - intros l r Hin. cbn in Hin.
    apply elem_of_cons in Hin as [Hin|Hin];
      [| apply elem_of_cons in Hin as [Hin|Hin]];
      [| | by apply elem_of_nil in Hin];
      injection Hin as -> ->; lia.
Defined.

(** C6 (as stated, refuted). The claim has every index outside [0, N)
    rejected. Index -1 is outside [0, 3), yet the update returns normally
    and writes the last cell; the sweep looks for ranges containing -1, so
    the sum stored for (0, 2) stays although the array changed under it. *)
Lemma negative_index_is_written :
  ¬ (0 <= -1 < Z.of_nat (length [1; 2; 3])) ∧
  update_with_cache [1; 2; 3] (-1) 10
    {| capacity := 2; _data := [((0, 2), 6)] |}
  = (Ok tt, ([1; 2; 10], {| capacity := 2; _data := [((0, 2), 6)] |})).
Proof. split; [lia | reflexivity]. Qed.

(** C6 (amended). For every update call with index >= N or index < -N,
    where N is the length of the backing array, IndexError is raised to
    the caller, the array is left unmodified at every position and the
    store is left entirely unchanged. *)
Theorem update_out_of_range
    (array : list Z) (index value : Z) (cache : LRUCache) :
  index < - Z.of_nat (length array) ∨ Z.of_nat (length array) <= index →
  update_with_cache array index value cache
  = (Raise IndexError, (array, cache)).
Proof.
  intros Hi. unfold update_with_cache.
  by rewrite (setitem_out_of_range _ _ _ Hi).
Qed.

Lemma update_out_of_range_witness :
  update_with_cache [1; 2; 3] 3 10 {| capacity := 2; _data := [((0, 2), 6)] |}
  = (Raise IndexError,
     ([1; 2; 3], {| capacity := 2; _data := [((0, 2), 6)] |})).
Proof.
  apply (update_out_of_range [1; 2; 3] 3 10
           {| capacity := 2; _data := [((0, 2), 6)] |}).
  right. simpl. lia.
Defined.

(** ** Cached against uncached *)

(** C1. For every finite list of range-sum and update queries, each range
    with 0 <= left <= right < N and each update with 0 <= index < N, run
    from the same initial array: the cached driver, with a fresh cache of
    any capacity C >= 1, and the uncached driver both run to the end and
    return the same sequence of range-sum values (and leave the same
    array). *)
Theorem cached_run_equals_uncached
    (array : list Z) (queries : list query) (C : Z) :
  1 <= C →
  Forall (valid_query (Z.of_nat (length array))) queries →
  ∃ vals array',
    run_sequence_with_cache array queries C = (Ok vals, array') ∧
    run_sequence_no_cache array queries = (Ok vals, array').
Proof.
  intros _ Hq. unfold run_sequence_with_cache, run_sequence_no_cache.
  cbn [LRUCache_init].
  destruct (loops_agree queries array {| capacity := C; _data := [] |} Hq)
    as (vals & array' & cache' & H1 & H2).
  - apply NoDup_nil_2.
  - intros l r v Hin. by apply elem_of_nil in Hin.
  - exists vals, array'. by rewrite H1, H2.
Qed.

Lemma cached_run_equals_uncached_witness :
  ∃ vals array',
    run_sequence_with_cache [3; 1; 4; 1; 5]
      [Range 0 4; Range 1 2; Update 2 10; Range 0 4; Range 1 2; Range 3 4] 2
    = (Ok vals, array') ∧
    run_sequence_no_cache [3; 1; 4; 1; 5]
      [Range 0 4; Range 1 2; Update 2 10; Range 0 4; Range 1 2; Range 3 4]
    = (Ok vals, array').
Proof.
  apply (cached_run_equals_uncached [3; 1; 4; 1; 5]
           [Range 0 4; Range 1 2; Update 2 10; Range 0 4; Range 1 2; Range 3 4]
           2); [lia |].
  repeat (apply Forall_cons_2; [simpl; lia |]). apply Forall_nil_2.
Defined.

(** * Further properties *)

(** ** Sums over the array *)

Section sum_facts.
Implicit Types (xs ys : list Z) (i l m r v : Z).

Lemma sum_foldl_acc xs (acc : Z) : foldl Z.add acc xs = acc + PyList.sum xs.
Proof.
  unfold PyList.sum. revert acc.
  induction xs as [|x xs IH]; intros acc; simpl; [lia |].
  rewrite (IH (acc + x)), (IH (0 + x)). lia.
Qed.

Lemma sum_nil : PyList.sum [] = 0.
Proof. done. Qed.

Lemma sum_cons x xs : PyList.sum (x :: xs) = x + PyList.sum xs.
Proof. unfold PyList.sum at 1. simpl. by rewrite sum_foldl_acc. Qed.

Lemma sum_app xs ys : PyList.sum (xs ++ ys) = PyList.sum xs + PyList.sum ys.
Proof.
  induction xs as [|x xs IH]; [done |].
  rewrite <- app_comm_cons, !sum_cons, IH. lia.
Qed.

(** Overwriting one cell moves the sum by the difference. *)
Lemma sum_insert xs (j : nat) old v :
  xs !! j = Some old → PyList.sum (<[j := v]> xs) = PyList.sum xs - old + v.
Proof.
  revert j. induction xs as [|x xs IH]; intros [|j] Hj; try done; simpl in *.
  - injection Hj as ->. rewrite !sum_cons. lia.
  - rewrite !sum_cons, (IH _ Hj). lia.
Qed.

End sum_facts.

(** X1. A range inside the array can be cut anywhere: for
    0 <= l <= m < r < N the sum over (l, r) is the sum over (l, m) plus
    the sum over (m + 1, r). *)
Theorem range_sum_no_cache_split (array : list Z) (l m r : Z) :
  0 <= l <= m →
  m < r < Z.of_nat (length array) →
  ∃ s1 s2,
    range_sum_no_cache array l m = Ok s1 ∧
    range_sum_no_cache array (m + 1) r = Ok s2 ∧
    range_sum_no_cache array l r = Ok (s1 + s2).
Proof.
  intros Hlm Hmr. unfold range_sum_no_cache. eexists _, _.
  split; [done |]. split; [done |]. f_equal.
  rewrite !slice_in_range by lia. rewrite <- sum_app. f_equal.
  replace (drop (Z.to_nat (m + 1)) array)
    with (drop (Z.to_nat (m + 1 - l)) (drop (Z.to_nat l) array))
    by (rewrite drop_drop; f_equal; lia).
  rewrite take_take_drop. f_equal. lia.
Qed.

Lemma range_sum_no_cache_split_witness :
  ∃ s1 s2,
    range_sum_no_cache [3; 1; 4; 1; 5] 1 2 = Ok s1 ∧
    range_sum_no_cache [3; 1; 4; 1; 5] (2 + 1) 4 = Ok s2 ∧
    range_sum_no_cache [3; 1; 4; 1; 5] 1 4 = Ok (s1 + s2).
Proof.
  apply (range_sum_no_cache_split [3; 1; 4; 1; 5] 1 2 4); simpl; lia.
Defined.

(** X2. The range (i, i) of an index inside the array reads the cell at
    i. *)
Theorem range_sum_no_cache_cell (array : list Z) (i x : Z) :
  0 <= i →
  array !! Z.to_nat i = Some x →
  range_sum_no_cache array i i = Ok x.
Proof.
  intros Hi Hx. unfold range_sum_no_cache. f_equal.
  assert (Z.to_nat i < length array)%nat as Hlt
    by (apply lookup_lt_is_Some; eauto).
  rewrite slice_in_range by lia.
  rewrite (drop_S _ _ _ Hx).
  replace (Z.to_nat (i + 1 - i)) with 1%nat by lia.
  simpl. rewrite take_0, sum_cons, sum_nil. lia.
Qed.

Lemma range_sum_no_cache_cell_witness :
  range_sum_no_cache [3; 1; 4; 1; 5] 2 2 = Ok 4.
Proof.
  apply (range_sum_no_cache_cell [3; 1; 4; 1; 5] 2 4); [lia | reflexivity].
Defined.

(** X3. Writing a cell inside a range moves the sum of the range by the
    difference: for 0 <= l <= index <= r < N, where the cell held [old],
    the update returns normally and the sum over (l, r) afterwards is the
    sum before, minus [old], plus the value written. *)
Theorem update_no_cache_range_sum
    (array : list Z) (l r index value old s : Z) :
  0 <= l <= index →
  index <= r < Z.of_nat (length array) →
  array !! Z.to_nat index = Some old →
  range_sum_no_cache array l r = Ok s →
  ∃ array',
    update_no_cache array index value = (Ok tt, array') ∧
    range_sum_no_cache array' l r = Ok (s - old + value).
Proof.
  intros Hl Hr Hold Hs. unfold update_no_cache.
  rewrite setitem_in_range by lia. eexists. split; [done |].
  unfold range_sum_no_cache in *. injection Hs as <-. f_equal.
  rewrite !slice_in_range by (rewrite ?length_insert; lia).
  rewrite drop_insert_ge by lia. rewrite take_insert_lt by lia.
  apply sum_insert.
  rewrite lookup_take_lt by lia. rewrite lookup_drop.
  rewrite <- Hold. f_equal. lia.
Qed.

Lemma update_no_cache_range_sum_witness :
  ∃ array',
    update_no_cache [3; 1; 4; 1; 5] 2 10 = (Ok tt, array') ∧
    range_sum_no_cache array' 1 3 = Ok (6 - 4 + 10).
Proof.
  apply (update_no_cache_range_sum [3; 1; 4; 1; 5] 1 3 2 10 4 6);
    try (simpl; lia); reflexivity.
Defined.

(** X4. A right bound at or past the last index is clamped: for
    0 <= l and r >= N - 1 the sum over (l, r) is the sum of the array from
    l to its end (so (0, r) gives the sum of the whole array, and a left
    bound past the end gives 0). *)
Theorem range_sum_no_cache_clamped (array : list Z) (l r : Z) :
  0 <= l →
  Z.of_nat (length array) <= r + 1 →
  range_sum_no_cache array l r = Ok (PyList.sum (drop (Z.to_nat l) array)).
Proof.
  intros Hl Hr. unfold range_sum_no_cache, PyList.slice, PyList.slice_bound.
  do 2 f_equal.
  destruct (Z.ltb_spec l 0); [lia |].
  destruct (Z.ltb_spec (r + 1) 0); [lia |].
  rewrite (Z.min_r (r + 1)) by lia.
  destruct (Z.le_ge_cases l (Z.of_nat (length array))) as [Hle|Hge].
  - rewrite Z.min_l by done. apply take_ge. rewrite length_drop. lia.
  - rewrite Z.min_r by done. rewrite Nat2Z.id, Z.sub_diag, drop_all.
    rewrite drop_ge by lia. done.
Qed.

Lemma range_sum_no_cache_clamped_witness :
  range_sum_no_cache [3; 1; 4; 1; 5] 3 100
  = Ok (PyList.sum (drop (Z.to_nat 3) [3; 1; 4; 1; 5])).
Proof. apply (range_sum_no_cache_clamped [3; 1; 4; 1; 5] 3 100); simpl; lia. Defined.

(** X5. Negative bounds count from the end of the array, as in any Python
    slice: for -N <= l <= r < -1 the sum over (l, r) is the sum over
    (l + N, r + N). *)
Theorem range_sum_no_cache_negative (array : list Z) (l r : Z) :
  - Z.of_nat (length array) <= l <= r →
  r < -1 →
  range_sum_no_cache array l r
  = range_sum_no_cache array (l + Z.of_nat (length array))
      (r + Z.of_nat (length array)).
Proof.
  intros Hl Hr. unfold range_sum_no_cache, PyList.slice, PyList.slice_bound.
  do 2 f_equal.
  destruct (Z.ltb_spec l 0); [| lia].
  destruct (Z.ltb_spec (r + 1) 0); [| lia].
  destruct (Z.ltb_spec (l + Z.of_nat (length array)) 0); [lia |].
  destruct (Z.ltb_spec (r + Z.of_nat (length array) + 1) 0); [lia |].
  rewrite !Z.max_l by lia. rewrite !Z.min_l by lia.
  do 2 f_equal; lia.
Qed.

Lemma range_sum_no_cache_negative_witness :
  range_sum_no_cache [3; 1; 4; 1; 5] (-4) (-2)
  = range_sum_no_cache [3; 1; 4; 1; 5]
      (-4 + Z.of_nat (length [3; 1; 4; 1; 5]))
      (-2 + Z.of_nat (length [3; 1; 4; 1; 5])).
Proof.
  apply (range_sum_no_cache_negative [3; 1; 4; 1; 5] (-4) (-2)); simpl; lia.
Defined.

(** X6. A right bound of -1 does not reach the last cell: the slice stops
    at [right + 1 = 0], the start of the array, so the sum over (l, -1) is
    0 for every array and every l. *)
Theorem range_sum_no_cache_right_minus_one (array : list Z) (l : Z) :
  range_sum_no_cache array l (-1) = Ok 0.
Proof.
  unfold range_sum_no_cache, PyList.slice, PyList.slice_bound. f_equal.
  change (-1 + 1) with 0. change (0 <? 0) with false. cbn iota.
  rewrite (Z.min_l 0) by lia.
  set (n := Z.of_nat (length array)).
  assert (0 <= (if l <? 0 then Z.max (l + n) 0 else Z.min l n)) as Hlo
    by (destruct (Z.ltb_spec l 0); lia).
  revert Hlo. generalize (if l <? 0 then Z.max (l + n) 0 else Z.min l n).
  intros lo Hlo. by replace (Z.to_nat (0 - lo)) with 0%nat by lia.
Qed.

(** X7. An index of [-N, 0) addresses the array from its end: the
    uncached update at such an index does what the update at index + N
    does. *)
Theorem update_no_cache_negative (array : list Z) (index value : Z) :
  - Z.of_nat (length array) <= index < 0 →
  update_no_cache array index value
  = update_no_cache array (index + Z.of_nat (length array)) value.
Proof.
  intros Hi. unfold update_no_cache.
  rewrite setitem_negative by done. by rewrite setitem_in_range by lia.
Qed.

Lemma update_no_cache_negative_witness :
  update_no_cache [1; 2; 3] (-1) 10
  = update_no_cache [1; 2; 3] (-1 + Z.of_nat (length [1; 2; 3])) 10.
Proof. apply (update_no_cache_negative [1; 2; 3] (-1) 10). simpl. lia. Defined.

(** The cached update has the array effect of the uncached one, for
    every index and every cache: the same outcome (normal return or
    IndexError) and the same array afterwards. *)
Theorem update_with_cache_array_effect
    (array : list Z) (index value : Z) (cache : LRUCache) :
  (update_with_cache array index value cache).1
    = (update_no_cache array index value).1 ∧
  (update_with_cache array index value cache).2.1
    = (update_no_cache array index value).2.
Proof.
  unfold update_with_cache, update_no_cache.
  destruct (PyList.setitem array index value) as [array'|e]; [| done].
  cbn zeta. by destruct (filter _ _).
Qed.

(** X8. A negative index that Python accepts is not seen by the sweep:
    for -N <= index < 0 and a store whose keys all have a left bound of
    at least 0 (every key cached for a range inside the array has), the
    cached update returns normally, writes the cell at index + N and
    leaves the whole store as it was, entries over the written cell
    included. *)
Theorem update_with_cache_negative_index
    (array : list Z) (index value : Z) (cache : LRUCache) :
  - Z.of_nat (length array) <= index < 0 →
  (∀ l r, (l, r) ∈ LRUCache_keys cache → 0 <= l) →
  update_with_cache array index value cache
  = (Ok tt,
     (<[Z.to_nat (index + Z.of_nat (length array)) := value]> array, cache)).
Proof.
  intros Hi Hkeys. unfold update_with_cache.
  rewrite setitem_negative by done. cbn zeta.
  destruct (filter _ (LRUCache_keys cache)) as [|[l r] ks] eqn:E; [done |].
  assert ((l, r) ∈ filter (λ k, covers index k) (LRUCache_keys cache))
    as Hin by (rewrite E; apply list_elem_of_here).
  apply list_elem_of_filter in Hin as [Hc Hin].
  apply Is_true_true, covers_spec in Hc. specialize (Hkeys _ _ Hin). lia.
Qed.

Lemma update_with_cache_negative_index_witness :
  update_with_cache [1; 2; 3] (-1) 10
    {| capacity := 2; _data := [((0, 2), 6); ((2, 2), 3)] |}
  = (Ok tt,
     (<[Z.to_nat (-1 + Z.of_nat (length [1; 2; 3])) := 10]> [1; 2; 3],
      {| capacity := 2; _data := [((0, 2), 6); ((2, 2), 3)] |})).
Proof.
  apply (update_with_cache_negative_index [1; 2; 3] (-1) 10
           {| capacity := 2; _data := [((0, 2), 6); ((2, 2), 3)] |}).
  - simpl. lia.
  - intros l r Hin. cbn in Hin.
    apply elem_of_cons in Hin as [Hin|Hin];
      [| apply elem_of_cons in Hin as [Hin|Hin]];
      [| | by apply elem_of_nil in Hin];
      injection Hin as -> ->; lia.
Defined.

(** ** More on the store *)

Section store_facts.
Import OrderedDict.
Implicit Types (c : LRUCache) (k : key) (v : Z).

Lemma od_lookup_snoc_ne d k k' v :
  k' ≠ k → lookup (d ++ [(k, v)]) k' = lookup d k'.
Proof.
  intros Hne. rewrite od_lookup_app. destruct (lookup d k'); [done |].
  simpl. by rewrite decide_False.
Qed.

Lemma od_remove_cons_eq d k v : remove ((k, v) :: d) k = remove d k.
Proof. unfold remove. by rewrite filter_cons_False by (intros H; by apply H). Qed.

Lemma od_remove_cons_ne d k k' v' :
  k' ≠ k → remove ((k', v') :: d) k = (k', v') :: remove d k.
Proof. intros Hne. unfold remove. by rewrite filter_cons_True. Qed.

Lemma od_remove_snoc_perm d k v :
  wf d → lookup d k = Some v → remove d k ++ [(k, v)] ≡ₚ d.
Proof.
  unfold wf, keys. induction d as [|[k' v'] d IH]; intros Hwf Hk; [done |].
  rewrite fmap_cons in Hwf. apply NoDup_cons in Hwf as [Hk' Hd].
  simpl in Hk. destruct (decide (k' = k)) as [->|Hne].
  - injection Hk as ->. rewrite od_remove_cons_eq.
    rewrite (od_remove_fresh d k) by by apply od_lookup_None.
    symmetry. apply Permutation_cons_append.
  - rewrite od_remove_cons_ne by done. simpl. f_equiv. by apply IH.
Qed.

Lemma od_remove_remove d k : remove (remove d k) k = remove d k.
Proof. apply od_remove_fresh, od_lookup_remove_eq. Qed.

End store_facts.

(** X9. [get] changes the order of the store at most, never what is
    stored: every key is looked up after a [get], of any key, as it was
    before, and the capacity is the same. *)
Theorem get_preserves_lookup (c : LRUCache) (k k' : key) :
  OrderedDict.lookup (_data (LRUCache_get c k).2) k'
    = OrderedDict.lookup (_data c) k' ∧
  capacity (LRUCache_get c k).2 = capacity c.
Proof.
  split; [| apply get_capacity].
  destruct (OrderedDict.lookup (_data c) k) as [v|] eqn:E.
  - rewrite (get_hit _ _ _ E). cbn [snd _data].
    destruct (decide (k' = k)) as [->|Hne].
    + rewrite E. apply od_lookup_snoc_eq, od_lookup_remove_eq.
    + rewrite od_lookup_snoc_ne by done. by apply od_lookup_remove_ne.
  - by rewrite (get_miss _ _ E).
Qed.

(** X10. A hit promotes: when k is stored with v in a dictionary, [get]
    returns v, k becomes the most recent entry, the other entries keep
    their relative order, and the store holds the same entries as before
    (nothing added, nothing lost). *)
Theorem get_hit_promotes (c : LRUCache) (k : key) (v : Z) :
  OrderedDict.wf (_data c) →
  OrderedDict.lookup (_data c) k = Some v →
  (LRUCache_get c k).1 = v ∧
  last (_data (LRUCache_get c k).2) = Some (k, v) ∧
  filter (λ e, e.1 ≠ k) (_data (LRUCache_get c k).2)
    = filter (λ e, e.1 ≠ k) (_data c) ∧
  _data (LRUCache_get c k).2 ≡ₚ _data c.
Proof.
  intros Hwf E. rewrite (get_hit _ _ _ E). cbn [fst snd _data].
  split; [done |]. split; [apply last_snoc |]. split.
  - rewrite filter_app. rewrite filter_cons_False by (intros H; by apply H).
    rewrite filter_nil, app_nil_r. apply od_remove_remove.
  - by apply od_remove_snoc_perm.
Qed.

Lemma get_hit_promotes_witness :
  (LRUCache_get {| capacity := 3;
                   _data := [((0, 4), 5); ((5, 9), 7); ((0, 2), 3)] |}
     (0, 4)).1 = 5 ∧
  last (_data (LRUCache_get
                 {| capacity := 3;
                    _data := [((0, 4), 5); ((5, 9), 7); ((0, 2), 3)] |}
                 (0, 4)).2) = Some ((0, 4), 5) ∧
  filter (λ e, e.1 ≠ (0, 4))
    (_data (LRUCache_get
              {| capacity := 3;
                 _data := [((0, 4), 5); ((5, 9), 7); ((0, 2), 3)] |}
              (0, 4)).2)
    = filter (λ e, e.1 ≠ (0, 4)) [((0, 4), 5); ((5, 9), 7); ((0, 2), 3)] ∧
  _data (LRUCache_get
           {| capacity := 3;
              _data := [((0, 4), 5); ((5, 9), 7); ((0, 2), 3)] |}
           (0, 4)).2
    ≡ₚ [((0, 4), 5); ((5, 9), 7); ((0, 2), 3)].
Proof.
  apply (get_hit_promotes
           {| capacity := 3;
              _data := [((0, 4), 5); ((5, 9), 7); ((0, 2), 3)] |} (0, 4) 5).
  - refine (bool_decide_unpack _ _). vm_compute. exact I.
  - reflexivity.
Defined.

(** X11. [put] disturbs no key but the one put and the oldest one: in a
    store within its capacity, a key other than k that is not the oldest
    key is looked up after [put(k, v)] as it was before. *)
Theorem put_frame (c : LRUCache) (k k' : key) (v : Z) :
  LRUCache_len c <= capacity c →
  k' ≠ k →
  head (OrderedDict.keys (_data c)) ≠ Some k' →
  OrderedDict.lookup (_data (LRUCache_put c k v)) k'
    = OrderedDict.lookup (_data c) k'.
Proof.
  unfold LRUCache_len. intros Hlen Hne Hhead. rewrite put_data. cbn zeta.
  assert (OrderedDict.lookup (OrderedDict.remove (_data c) k ++ [(k, v)]) k'
          = OrderedDict.lookup (_data c) k') as Hd2.
  { rewrite od_lookup_snoc_ne by done. by apply od_lookup_remove_ne. }
  destruct (Z.ltb_spec (capacity c)
              (Z.of_nat (length (OrderedDict.remove (_data c) k ++ [(k, v)]))))
    as [Hlt|Hge]; [| done].
  rewrite length_app in Hlt. simpl in Hlt.
  destruct (OrderedDict.lookup (_data c) k) as [v0|] eqn:Ek.
  { pose proof (length_remove_lt _ _ _ Ek). lia. }
  rewrite (od_remove_fresh _ _ Ek) in *.
  destruct (_data c) as [|[k0 v0] d]; simpl in *; [done |].
  destruct (decide (k0 = k')) as [->|Hk0]; [done | exact Hd2].
Qed.

Lemma put_frame_witness :
  OrderedDict.lookup
    (_data (LRUCache_put
              {| capacity := 2; _data := [((0, 4), 5); ((5, 9), 7)] |}
              (0, 2) 3)) (5, 9)
  = OrderedDict.lookup [((0, 4), 5); ((5, 9), 7)] (5, 9).
Proof.
  apply (put_frame {| capacity := 2; _data := [((0, 4), 5); ((5, 9), 7)] |}
           (0, 2) (5, 9) 3).
  - unfold LRUCache_len. simpl. lia.
  - intros H. injection H as H1 H2. lia.
  - simpl. intros H. injection H as H1 H2. lia.
Defined.

(** X12. The last write wins: in a store within its capacity, putting v1
    and then v2 under the same key leaves the cache that putting v2 alone
    leaves. *)
Theorem put_put_same_key (c : LRUCache) (k : key) (v1 v2 : Z) :
  LRUCache_len c <= capacity c →
  LRUCache_put (LRUCache_put c k v1) k v2 = LRUCache_put c k v2.
Proof.
  unfold LRUCache_len. intros Hlen.
  assert (∀ c1 c2, capacity c1 = capacity c2 → _data c1 = _data c2 → c1 = c2)
    as Heq by (intros [??] [??]; simpl; congruence).
  apply Heq; [done |].
  rewrite (put_data (LRUCache_put c k v1)), put_capacity, !put_data. cbn zeta.
  pose proof (length_remove_le (_data c) k) as Hle.
  set (R := OrderedDict.remove (_data c) k) in *.
  assert (∀ v, OrderedDict.remove (R ++ [(k, v)]) k = R) as Hrem.
  { intros v. unfold OrderedDict.remove. rewrite filter_app.
    rewrite filter_cons_False by (intros H; by apply H).
    rewrite filter_nil, app_nil_r. apply od_remove_remove. }
  rewrite !length_app. simpl length.
  destruct (Z.ltb_spec (capacity c) (Z.of_nat (length R + 1))) as [Hlt|Hge].
  - destruct R as [|e R'] eqn:ER; simpl.
    + destruct (Z.ltb_spec (capacity c) (Z.of_nat 1)); [done | simpl in *; lia].
    + assert (OrderedDict.remove (R' ++ [(k, v1)]) k = R') as ->.
      { specialize (Hrem v1). unfold OrderedDict.remove in *.
        rewrite <- app_comm_cons, filter_cons in Hrem.
        destruct (decide (e.1 ≠ k)) as [_|Hn]; [by injection Hrem |].
        exfalso. assert (e ∈ R) as Hin by (rewrite ER; apply list_elem_of_here).
        apply list_elem_of_filter in Hin as [Hin _]. by apply Hn. }
      simpl in *.
      destruct (Z.ltb_spec (capacity c) (Z.of_nat (length R' + 1))); [lia | done].
  - rewrite Hrem.
    destruct (Z.ltb_spec (capacity c) (Z.of_nat (length R + 1))); [lia | done].
Qed.

Lemma put_put_same_key_witness :
  LRUCache_put
    (LRUCache_put {| capacity := 2; _data := [((0, 4), 5); ((5, 9), 7)] |}
       (0, 4) 8) (0, 4) 9
  = LRUCache_put {| capacity := 2; _data := [((0, 4), 5); ((5, 9), 7)] |}
      (0, 4) 9.
Proof.
  apply (put_put_same_key
           {| capacity := 2; _data := [((0, 4), 5); ((5, 9), 7)] |}
           (0, 4) 8 9).
  unfold LRUCache_len. simpl. lia.
Defined.

Section recency.
Import OrderedDict.

Lemma od_remove_app d1 d2 k : remove (d1 ++ d2) k = remove d1 k ++ remove d2 k.
Proof. unfold remove. apply filter_app. Qed.

(** A key with [post] entries behind it outlives any run of puts of other
    keys that is shorter than the room the capacity leaves. *)
Lemma puts_keep_recent (entries : list (key * Z)) :
  ∀ (c : LRUCache) (pre post : OrderedDict.t) k v,
    _data c = pre ++ (k, v) :: post →
    lookup pre k = None →
    Forall (λ e, e.1 ≠ k) entries →
    Z.of_nat (length post + length entries) < capacity c →
    lookup (_data (foldl (λ c e, LRUCache_put c e.1 e.2) c entries)) k = Some v.
Proof.
  induction entries as [|[k' v'] entries IH]; intros c pre post k v Hd Hpre Hne Hroom.
  - simpl. rewrite Hd, od_lookup_app, Hpre. simpl. by rewrite decide_True.
  - apply Forall_cons in Hne as [Hk' Hne]. simpl in Hk'. cbn [foldl fst snd].
    pose proof (put_data c k' v') as Hp. cbn zeta in Hp.
    rewrite Hd, od_remove_app, od_remove_cons_ne in Hp by done.
    rewrite <- app_assoc, <- app_comm_cons in Hp.
    assert (lookup (remove pre k') k = None) as Hpre1
      by (rewrite od_lookup_remove_ne by done; done).
    pose proof (length_remove_le post k') as Hpost.
    simpl length in Hroom.
    destruct (Z.ltb_spec (capacity c)
                (Z.of_nat (length (remove pre k' ++
                   (k, v) :: remove post k' ++ [(k', v')])))) as [Hlt|Hge].
    + destruct (remove pre k') as [|e pre1] eqn:E.
      * simpl in Hlt. rewrite length_app in Hlt. simpl in Hlt. lia.
      * apply (IH (LRUCache_put c k' v') pre1
                 (remove post k' ++ [(k', v')]) k v).
        -- exact Hp.
        -- apply (od_lookup_tail_None (e :: pre1) k Hpre1).
        -- done.
        -- rewrite put_capacity, length_app. simpl. lia.
    + apply (IH (LRUCache_put c k' v') (remove pre k')
               (remove post k' ++ [(k', v')]) k v);
        [exact Hp | done | done |].
      rewrite put_capacity, length_app. simpl. lia.
Qed.

End recency.

(** X13. What was used last is evicted last: if k is the most recent entry
    of a dictionary with capacity C, then after any run of fewer than C
    puts of other keys (new or already stored), k is still stored with its
    value. *)
Theorem recently_used_survives
    (c : LRUCache) (k : key) (v : Z) (entries : list (key * Z)) :
  OrderedDict.wf (_data c) →
  last (_data c) = Some (k, v) →
  Forall (λ e, e.1 ≠ k) entries →
  Z.of_nat (length entries) < capacity c →
  OrderedDict.lookup
    (_data (foldl (λ c e, LRUCache_put c e.1 e.2) c entries)) k = Some v.
Proof.
  intros Hwf Hlast Hne Hroom.
  apply last_Some in Hlast as [pre Hd].
  apply (puts_keep_recent entries c pre [] k v); [done | | done | simpl; lia].
  apply od_lookup_None. unfold OrderedDict.wf, OrderedDict.keys in *.
  rewrite Hd, fmap_app in Hwf. apply NoDup_app in Hwf as (_ & Hdisj & _).
  intros Hin. apply (Hdisj _ Hin). cbn. apply list_elem_of_here.
Qed.

Lemma recently_used_survives_witness :
  OrderedDict.lookup
    (_data (foldl (λ c e, LRUCache_put c e.1 e.2)
              (LRUCache_get
                 {| capacity := 3;
                    _data := [((0, 4), 5); ((5, 9), 7); ((0, 2), 3)] |}
                 (0, 4)).2
              [((1, 1), 1); ((2, 2), 2)])) (0, 4) = Some 5.
Proof.
  apply (recently_used_survives
           (LRUCache_get
              {| capacity := 3;
                 _data := [((0, 4), 5); ((5, 9), 7); ((0, 2), 3)] |}
              (0, 4)).2 (0, 4) 5 [((1, 1), 1); ((2, 2), 2)]).
  - refine (bool_decide_unpack _ _). vm_compute. exact I.
  - reflexivity.
  - repeat (apply Forall_cons_2;
            [simpl; intros H; injection H as H1 H2; lia |]).
    apply Forall_nil_2.
  - simpl. lia.
Defined.

(** X14. A cache built with a capacity of 0 or less never keeps anything:
    after any sequence of puts and gets its store is empty and every
    [get] answers -1. *)
Theorem nonpositive_capacity_stores_nothing
    (C : Z) (ops : list cache_op) (c0 : LRUCache) :
  C <= 0 →
  LRUCache_init C = Ok c0 →
  _data (run_ops c0 ops) = [] ∧
  ∀ k, LRUCache_get (run_ops c0 ops) k = (-1, run_ops c0 ops).
Proof.
  intros HC [= <-].
  assert (run_ops {| capacity := C; _data := [] |} ops
          = {| capacity := C; _data := [] |}) as ->.
  { assert (∀ k v, LRUCache_put {| capacity := C; _data := [] |} k v
                   = {| capacity := C; _data := [] |}) as Hput.
    { intros k v. unfold LRUCache_put. simpl. change (Z.of_nat 1) with 1.
      destruct (Z.ltb_spec C 1); [done | lia]. }
    unfold run_ops. induction ops as [|op ops IH]; [done |].
    destruct op as [k v|k]; cbn [foldl apply_op]; [by rewrite Hput |].
    by rewrite get_miss. }
  split; [done |]. intros k. by apply get_miss.
Qed.

Lemma nonpositive_capacity_stores_nothing_witness :
  _data (run_ops {| capacity := 0; _data := [] |}
           [Put (0, 4) 5; Get (0, 4); Put (5, 9) 7]) = [] ∧
  ∀ k, LRUCache_get
         (run_ops {| capacity := 0; _data := [] |}
            [Put (0, 4) 5; Get (0, 4); Put (5, 9) 7]) k
       = (-1, run_ops {| capacity := 0; _data := [] |}
                [Put (0, 4) 5; Get (0, 4); Put (5, 9) 7]).
Proof.
  apply (nonpositive_capacity_stores_nothing 0
           [Put (0, 4) 5; Get (0, 4); Put (5, 9) 7]
           {| capacity := 0; _data := [] |}); [lia | reflexivity].
Defined.

(** X15. With a capacity of at least 1, whatever a cached range sum
    returns is what the store then holds for that range, as its most
    recent entry; this includes a returned -1 and ranges outside the
    array. *)
Theorem range_sum_with_cache_most_recent
    (array : list Z) (l r : Z) (cache cache1 : LRUCache) (s : Z) :
  1 <= capacity cache →
  range_sum_with_cache array l r cache = (Ok s, cache1) →
  last (_data cache1) = Some ((l, r), s) ∧
  OrderedDict.lookup (_data cache1) (l, r) = Some s.
Proof.
  intros HC Hrun.
  assert (capacity (LRUCache_get cache (l, r)).2 >= 1) as HC1
    by (rewrite get_capacity; lia).
  destruct (get_fst_cases cache (l, r)) as [[E Hg]|(v & E & Hg)].
  - rewrite (range_sum_with_cache_miss _ _ _ _ Hg) in Hrun.
    injection Hrun as <- <-.
    split; [apply put_last | apply put_lookup_same]; lia.
  - destruct (decide (v = -1)) as [->|Hv].
    + rewrite (range_sum_with_cache_miss _ _ _ _ Hg) in Hrun.
      injection Hrun as <- <-.
      split; [apply put_last | apply put_lookup_same]; lia.
    + rewrite (range_sum_with_cache_hit _ _ _ _ _ E Hv) in Hrun.
      injection Hrun as <- <-. split; [| by apply get_hit_lookup].
      rewrite (get_hit _ _ _ E). apply last_snoc.
Qed.

Lemma range_sum_with_cache_most_recent_witness :
  last [((5, 9), 7); ((0, 0), -1)] = Some ((0, 0), -1) ∧
  OrderedDict.lookup [((5, 9), 7); ((0, 0), -1)] (0, 0) = Some (-1).
Proof.
  apply (range_sum_with_cache_most_recent [-1; 2] 0 0
           {| capacity := 2; _data := [((0, 0), -1); ((5, 9), 7)] |}
           {| capacity := 2; _data := [((5, 9), 7); ((0, 0), -1)] |} (-1));
    [simpl; lia | reflexivity].
Defined.

(** ** The drivers on arbitrary queries *)

Section driver_facts.
Import OrderedDict.

(** A write at i leaves alone every slice whose key starts at 0 or later,
    ends at -1 or later and does not contain i, however far the key
    reaches past the end of the array. *)
Lemma slice_insert_outside_wide (xs : list Z) (l r i v : Z) :
  0 <= l → -1 <= r →
  0 <= i < Z.of_nat (length xs) →
  i < l ∨ r < i →
  PyList.slice (<[Z.to_nat i := v]> xs) l (r + 1) = PyList.slice xs l (r + 1).
Proof.
  intros Hl Hr Hi Hout. unfold PyList.slice, PyList.slice_bound.
  rewrite length_insert.
  destruct (Z.ltb_spec l 0); [lia |].
  destruct (Z.ltb_spec (r + 1) 0); [lia |].
  set (n := Z.of_nat (length xs)) in *.
  destruct (Z.lt_ge_cases i (Z.min l n)) as [Hlt|Hge].
  - by rewrite drop_insert_lt by lia.
  - rewrite drop_insert_ge by lia. by rewrite take_insert_ge by lia.
Qed.

Lemma range_sum_with_cache_coherent array cache l r :
  wf (_data cache) →
  cache_coherent array cache →
  ∃ cache',
    range_sum_with_cache array l r cache =
      (Ok (PyList.sum (PyList.slice array l (r + 1))), cache') ∧
    wf (_data cache') ∧ cache_coherent array cache' ∧
    (keys_from_start cache → 0 <= l ∧ -1 <= r → keys_from_start cache').
Proof.
  intros Hwf Hs.
  pose proof (get_wf cache (l, r) Hwf) as Hwf1.
  assert (cache_coherent array (LRUCache_get cache (l, r)).2) as Hs1
    by (intros l' r' v' Hin; apply get_elem in Hin; by apply Hs).
  assert (keys_from_start cache →
          keys_from_start (LRUCache_get cache (l, r)).2) as Hk1
    by (intros Hk l' r' v' Hin; apply get_elem in Hin; by eapply Hk).
  destruct (get_fst_cases cache (l, r)) as [[E Hg]|(v & E & Hg)].
  - rewrite (range_sum_with_cache_miss _ _ _ _ Hg). eexists. split; [done |].
    split; [by apply put_wf |]. split.
    + intros l' r' v' Hin. apply put_elem in Hin as [Hin|[= -> -> ->]];
        [by apply Hs1 | done].
    + intros Hk Hlr l' r' v' Hin. apply put_elem in Hin as [Hin|[= -> -> ->]];
        [by eapply Hk1 | done].
  - destruct (decide (v = -1)) as [->|Hv].
    + rewrite (range_sum_with_cache_miss _ _ _ _ Hg). eexists. split; [done |].
      split; [by apply put_wf |]. split.
      * intros l' r' v' Hin. apply put_elem in Hin as [Hin|[= -> -> ->]];
          [by apply Hs1 | done].
      * intros Hk Hlr l' r' v' Hin.
        apply put_elem in Hin as [Hin|[= -> -> ->]]; [by eapply Hk1 | done].
    + rewrite (range_sum_with_cache_hit _ _ _ _ _ E Hv).
      rewrite <- (Hs _ _ _ (od_lookup_Some_elem _ _ _ E)).
      eexists. split; [done |]. split; [done |]. split; [done |].
      intros Hk _. by apply Hk1.
Qed.

Lemma update_with_cache_coherent array index value cache :
  0 <= index < Z.of_nat (length array) →
  wf (_data cache) →
  cache_coherent array cache →
  keys_from_start cache →
  ∃ cache',
    update_with_cache array index value cache =
      (Ok tt, (<[Z.to_nat index := value]> array, cache')) ∧
    wf (_data cache') ∧
    cache_coherent (<[Z.to_nat index := value]> array) cache' ∧
    keys_from_start cache'.
Proof.
  intros Hi Hwf Hs Hk. rewrite (update_with_cache_sweep _ _ _ _ Hwf Hi).
  eexists. split; [done |]. cbn [_data]. split; [by apply od_wf_filter |].
  split.
  - intros l r v Hin. apply list_elem_of_filter in Hin as [Hnc Hin].
    simpl in Hnc. destruct (Hk _ _ _ Hin) as [Hl Hr].
    rewrite slice_insert_outside_wide; [by apply Hs | done | done | done |].
    apply covers_false. by destruct (covers index (l, r)).
  - intros l r v Hin. apply list_elem_of_filter in Hin as [_ Hin]. by eapply Hk.
Qed.

Lemma loops_agree_admissible queries : ∀ array cache,
  Forall (admissible_query (Z.of_nat (length array))) queries →
  wf (_data cache) →
  cache_coherent array cache →
  keys_from_start cache →
  ∃ vals array' cache',
    loop_with_cache array cache queries = (Ok vals, (array', cache')) ∧
    loop_no_cache array queries = (Ok vals, array') ∧
    wf (_data cache') ∧ cache_coherent array' cache' ∧
    keys_from_start cache'.
Proof.
  induction queries as [|q queries IH]; intros array cache Hq Hwf Hs Hk.
  - by exists [], array, cache.
  - apply Forall_cons in Hq as [Hq Hqs]. destruct q as [l r|idx val].
    + destruct (range_sum_with_cache_coherent array cache l r Hwf Hs)
        as (cache1 & Hrun & Hwf1 & Hs1 & Hk1).
      destruct (IH array cache1 Hqs Hwf1 Hs1 (Hk1 Hk Hq))
        as (vals & array' & cache' & H1 & H2 & Hrest).
      exists (PyList.sum (PyList.slice array l (r + 1)) :: vals), array', cache'.
      cbn [loop_with_cache loop_no_cache]. unfold range_sum_no_cache.
      by rewrite Hrun, H1, H2.
    + destruct (update_with_cache_coherent array idx val cache Hq Hwf Hs Hk)
        as (cache1 & Hrun & Hwf1 & Hs1 & Hk1).
      assert (Forall (admissible_query (Z.of_nat
                (length (<[Z.to_nat idx := val]> array)))) queries) as Hqs'
        by by rewrite length_insert.
      destruct (IH _ cache1 Hqs' Hwf1 Hs1 Hk1)
        as (vals & array' & cache' & H1 & H2 & Hrest).
      exists vals, array', cache'.
      cbn [loop_with_cache loop_no_cache]. unfold update_no_cache.
      rewrite Hrun. simpl in Hq. by rewrite (setitem_in_range _ _ _ Hq).
Qed.

Lemma loops_agree_ranges queries : ∀ array cache,
  Forall (λ q, is_range q = true) queries →
  wf (_data cache) →
  cache_coherent array cache →
  ∃ vals cache',
    loop_with_cache array cache queries = (Ok vals, (array, cache')) ∧
    loop_no_cache array queries = (Ok vals, array).
Proof.
  induction queries as [|q queries IH]; intros array cache Hq Hwf Hs.
  - by exists [], cache.
  - apply Forall_cons in Hq as [Hq Hqs]. destruct q as [l r|idx val]; [| done].
    destruct (range_sum_with_cache_coherent array cache l r Hwf Hs)
      as (cache1 & Hrun & Hwf1 & Hs1 & _).
    destruct (IH array cache1 Hqs Hwf1 Hs1) as (vals & cache' & H1 & H2).
    exists (PyList.sum (PyList.slice array l (r + 1)) :: vals), cache'.
    cbn [loop_with_cache loop_no_cache]. unfold range_sum_no_cache.
    by rewrite Hrun, H1, H2.
Qed.

(** The store stays a dictionary within its capacity under any query. *)
Lemma range_sum_with_cache_bounds array l r cache :
  wf (_data cache) → LRUCache_len cache <= capacity cache →
  wf (_data (range_sum_with_cache array l r cache).2) ∧
  LRUCache_len (range_sum_with_cache array l r cache).2 <= capacity cache ∧
  capacity (range_sum_with_cache array l r cache).2 = capacity cache.
Proof.
  intros Hwf Hlen.
  pose proof (get_wf cache (l, r) Hwf) as Hwf1.
  pose proof (get_len_bound cache (l, r)) as Hlen1.
  pose proof (get_capacity cache (l, r)) as Hcap1.
  unfold range_sum_with_cache.
  destruct (LRUCache_get cache (l, r)) as [cached cache1]. cbn [fst snd] in *.
  destruct (negb (cached =? -1)); cbn [snd].
  - split; [done |]. split; [lia | done].
  - split; [by apply put_wf |]. rewrite put_capacity, <- Hcap1.
    split; [apply put_len_bound; lia | done].
Qed.

Lemma update_with_cache_bounds array index value cache :
  wf (_data cache) → LRUCache_len cache <= capacity cache →
  wf (_data (update_with_cache array index value cache).2.2) ∧
  LRUCache_len (update_with_cache array index value cache).2.2
    <= capacity cache ∧
  capacity (update_with_cache array index value cache).2.2 = capacity cache.
Proof.
  intros Hwf Hlen. unfold update_with_cache.
  destruct (PyList.setitem array index value) as [array'|e]; [| done].
  cbn zeta. destruct (filter _ (LRUCache_keys cache)) as [|k0 ks]; [done |].
  cbn [snd _data capacity]. unfold LRUCache_len in *. cbn [_data].
  rewrite od_of_items_wf by by apply od_wf_filter.
  split; [by apply od_wf_filter |]. split; [| done].
  pose proof (length_filter (λ e : Z * Z * Z, e.1 ∉ k0 :: ks) (_data cache)). lia.
Qed.

Lemma loop_with_cache_bounds queries : ∀ array cache,
  wf (_data cache) → LRUCache_len cache <= capacity cache →
  wf (_data (loop_with_cache array cache queries).2.2) ∧
  LRUCache_len (loop_with_cache array cache queries).2.2 <= capacity cache ∧
  capacity (loop_with_cache array cache queries).2.2 = capacity cache.
Proof.
  induction queries as [|q queries IH]; intros array cache Hwf Hlen; [done |].
  destruct q as [l r|idx val]; cbn [loop_with_cache].
  - destruct (range_sum_with_cache_bounds array l r cache Hwf Hlen)
      as (Hwf1 & Hlen1 & Hcap1).
    destruct (range_sum_with_cache array l r cache) as [[s|e] cache1];
      cbn [snd] in *; [| done].
    destruct (IH array cache1 Hwf1 ltac:(lia)) as (Hwf2 & Hlen2 & Hcap2).
    destruct (loop_with_cache array cache1 queries) as [out st].
    cbn [snd] in *. split; [done |]. split; [lia | congruence].
  - destruct (update_with_cache_bounds array idx val cache Hwf Hlen)
      as (Hwf1 & Hlen1 & Hcap1).
    destruct (update_with_cache array idx val cache) as [[[]|e] [array1 cache1]];
      cbn [snd] in *; [| done].
    destruct (IH array1 cache1 Hwf1 ltac:(lia)) as (Hwf2 & Hlen2 & Hcap2).
    split; [done |]. split; [lia | congruence].
Qed.

Lemma range_sum_with_cache_ok array l r cache :
  ∃ s cache', range_sum_with_cache array l r cache = (Ok s, cache').
Proof.
  unfold range_sum_with_cache.
  destruct (LRUCache_get cache (l, r)) as [cached cache1].
  destruct (negb (cached =? -1)); eauto.
Qed.

(** The cache has no say in what is written nor in whether a run
    raises. *)
Lemma loops_same_array queries : ∀ array cache,
  (loop_with_cache array cache queries).2.1 = (loop_no_cache array queries).2 ∧
  exc_map length (loop_with_cache array cache queries).1
    = exc_map length (loop_no_cache array queries).1.
Proof.
  induction queries as [|q queries IH]; intros array cache; [done |].
  destruct q as [l r|idx val]; cbn [loop_with_cache loop_no_cache].
  - unfold range_sum_no_cache.
    destruct (range_sum_with_cache_ok array l r cache) as (s & c1 & ->).
    destruct (IH array c1) as [IH1 IH2].
    destruct (loop_with_cache array c1 queries) as [out st].
    destruct (loop_no_cache array queries) as [out' array'].
    cbn [fst snd] in *. split; [done |].
    destruct out, out'; simpl in *; congruence.
  - unfold update_with_cache, update_no_cache.
    destruct (PyList.setitem array idx val) as [array1|e]; [| done].
    cbn zeta. destruct (filter _ (LRUCache_keys cache)); apply IH.
Qed.

End driver_facts.

(** X16. Whatever the queries are (ranges outside the array, negative
    indices, an update that raises), the store of a run started with a
    fresh cache of capacity C >= 0 ends as a dictionary of at most C
    entries with the capacity it was built with. *)
Theorem run_keeps_store_within_capacity
    (array : list Z) (queries : list query) (C : Z) (c0 : LRUCache) :
  0 <= C →
  LRUCache_init C = Ok c0 →
  LRUCache_len (loop_with_cache array c0 queries).2.2 <= C ∧
  OrderedDict.wf (_data (loop_with_cache array c0 queries).2.2) ∧
  capacity (loop_with_cache array c0 queries).2.2 = C.
Proof.
  intros HC [= <-].
  destruct (loop_with_cache_bounds queries array
              {| capacity := C; _data := [] |}) as (Hwf & Hlen & Hcap).
  - apply NoDup_nil_2.
  - unfold LRUCache_len. simpl. lia.
  - done.
Qed.

Lemma run_keeps_store_within_capacity_witness :
  LRUCache_len
    (loop_with_cache [1; 2; 3]
       {| capacity := 1; _data := [] |}
       [Range 0 2; Range 2 1; Update (-1) 10; Range (-5) 7; Update 9 9]).2.2
    <= 1 ∧
  OrderedDict.wf
    (_data (loop_with_cache [1; 2; 3]
       {| capacity := 1; _data := [] |}
       [Range 0 2; Range 2 1; Update (-1) 10; Range (-5) 7; Update 9 9]).2.2) ∧
  capacity
    (loop_with_cache [1; 2; 3]
       {| capacity := 1; _data := [] |}
       [Range 0 2; Range 2 1; Update (-1) 10; Range (-5) 7; Update 9 9]).2.2
    = 1.
Proof.
  apply (run_keeps_store_within_capacity [1; 2; 3]
           [Range 0 2; Range 2 1; Update (-1) 10; Range (-5) 7; Update 9 9]
           1 {| capacity := 1; _data := [] |}); [lia | reflexivity].
Defined.

(** X17. The cache has no say in what is written: for every array, every
    list of queries and every capacity, the cached and the uncached run
    leave the same array, and they end the same way: both raise the same
    exception, or both return as many values. *)
Theorem runs_write_the_same_array
    (array : list Z) (queries : list query) (C : Z) :
  (run_sequence_with_cache array queries C).2
    = (run_sequence_no_cache array queries).2 ∧
  exc_map length (run_sequence_with_cache array queries C).1
    = exc_map length (run_sequence_no_cache array queries).1.
Proof.
  unfold run_sequence_with_cache, run_sequence_no_cache. cbn [LRUCache_init].
  destruct (loops_same_array queries array {| capacity := C; _data := [] |})
    as [H1 H2].
  by destruct (loop_with_cache _ _ _) as [out [array' cache']].
Qed.

(** X18. The cached run agrees with the uncached one on more than the
    ranges inside the array: it is enough that every range has
    left >= 0 and right >= -1 (it may be reversed or reach past the end)
    and every update has 0 <= index < N. Both runs then finish, return
    the same values and leave the same array, for any capacity. *)
Theorem admissible_runs_agree
    (array : list Z) (queries : list query) (C : Z) :
  Forall (admissible_query (Z.of_nat (length array))) queries →
  ∃ vals array',
    run_sequence_with_cache array queries C = (Ok vals, array') ∧
    run_sequence_no_cache array queries = (Ok vals, array').
Proof.
  intros Hq. unfold run_sequence_with_cache, run_sequence_no_cache.
  cbn [LRUCache_init].
  destruct (loops_agree_admissible queries array
              {| capacity := C; _data := [] |} Hq)
    as (vals & array' & cache' & H1 & H2 & _).
  - apply NoDup_nil_2.
  - intros l r v Hin. by apply elem_of_nil in Hin.
  - intros l r v Hin. by apply elem_of_nil in Hin.
  - exists vals, array'. by rewrite H1, H2.
Qed.

Lemma admissible_runs_agree_witness :
  ∃ vals array',
    run_sequence_with_cache [3; 1; 4]
      [Range 0 9; Range 2 1; Update 2 10; Range 0 9; Range 5 (-1); Range 2 1] 2
    = (Ok vals, array') ∧
    run_sequence_no_cache [3; 1; 4]
      [Range 0 9; Range 2 1; Update 2 10; Range 0 9; Range 5 (-1); Range 2 1]
    = (Ok vals, array').
Proof.
  apply (admissible_runs_agree [3; 1; 4]
           [Range 0 9; Range 2 1; Update 2 10; Range 0 9; Range 5 (-1);
            Range 2 1] 2).
  repeat (apply Forall_cons_2; [simpl; lia |]). apply Forall_nil_2.
Defined.

(** X19. Without updates nothing can go stale: on a list of range queries
    only, with any bounds at all (negative ones included), the cached and
    the uncached run return the same values and leave the array as it
    was, for any capacity. *)
Theorem range_only_runs_agree
    (array : list Z) (queries : list query) (C : Z) :
  Forall (λ q, is_range q = true) queries →
  ∃ vals,
    run_sequence_with_cache array queries C = (Ok vals, array) ∧
    run_sequence_no_cache array queries = (Ok vals, array).
Proof.
  intros Hq. unfold run_sequence_with_cache, run_sequence_no_cache.
  cbn [LRUCache_init].
  destruct (loops_agree_ranges queries array
              {| capacity := C; _data := [] |} Hq)
    as (vals & cache' & H1 & H2).
  - apply NoDup_nil_2.
  - intros l r v Hin. by apply elem_of_nil in Hin.
  - exists vals. by rewrite H1, H2.
Qed.

Lemma range_only_runs_agree_witness :
  ∃ vals,
    run_sequence_with_cache [3; 1; 4]
      [Range (-3) (-2); Range 0 2; Range (-3) (-2); Range (-9) 9] 2
    = (Ok vals, [3; 1; 4]) ∧
    run_sequence_no_cache [3; 1; 4]
      [Range (-3) (-2); Range 0 2; Range (-3) (-2); Range (-9) 9]
    = (Ok vals, [3; 1; 4]).
Proof.
  apply (range_only_runs_agree [3; 1; 4]
           [Range (-3) (-2); Range 0 2; Range (-3) (-2); Range (-9) 9] 2).
  repeat (apply Forall_cons_2; [reflexivity |]). apply Forall_nil_2.
Defined.

(** X20. An exact store stays exact: started from a dictionary whose every
    value is the current sum of its key's slice (keys with left >= 0 and
    right >= -1), a run of ranges with left >= 0 and right >= -1 and of
    updates inside the array finishes, and every value in the store at the
    end is the sum the final array has on the slice of its key. *)
Theorem exact_store_stays_exact
    (array : list Z) (cache : LRUCache) (queries : list query) :
  OrderedDict.wf (_data cache) →
  cache_coherent array cache →
  keys_from_start cache →
  Forall (admissible_query (Z.of_nat (length array))) queries →
  ∃ vals array' cache',
    loop_with_cache array cache queries = (Ok vals, (array', cache')) ∧
    OrderedDict.wf (_data cache') ∧
    cache_coherent array' cache' ∧
    keys_from_start cache'.
Proof.
  intros Hwf Hs Hk Hq.
  destruct (loops_agree_admissible queries array cache Hq Hwf Hs Hk)
    as (vals & array' & cache' & H1 & _ & Hrest).
  by exists vals, array', cache'.
Qed.

Lemma exact_store_stays_exact_witness :
  ∃ vals array' cache',
    loop_with_cache [3; 1; 4] {| capacity := 2; _data := [((0, 1), 4)] |}
      [Range 1 2; Update 1 7; Range 0 1]
    = (Ok vals, (array', cache')) ∧
    OrderedDict.wf (_data cache') ∧
    cache_coherent array' cache' ∧
    keys_from_start cache'.
Proof.
  apply (exact_store_stays_exact [3; 1; 4]
           {| capacity := 2; _data := [((0, 1), 4)] |}
           [Range 1 2; Update 1 7; Range 0 1]).
  - refine (bool_decide_unpack _ _). vm_compute. exact I.
  - intros l r v Hin. apply list_elem_of_singleton in Hin.
    injection Hin as -> -> ->. reflexivity.
  - intros l r v Hin. apply list_elem_of_singleton in Hin.
    injection Hin as -> -> ->. lia.
  - repeat (apply Forall_cons_2; [simpl; lia |]). apply Forall_nil_2.
Defined.

(** ** The generated workload *)

Section random_facts.
Context {G F : Type}.
Variable randint_draw : Z → Z → G → Z * G.
Variable random_draw : G → F * G.
Variable float_lt : F → F → bool.
Variable randbelow : nat → G → nat * G.

(** What the draws promise: [randint] stays inside a non-empty range,
    and the index drawn for [choice] is inside the sequence. *)
Hypothesis randint_draw_range :
  ∀ a b g, a <= b → a <= (randint_draw a b g).1 <= b.
Hypothesis randbelow_range :
  ∀ n g, (0 < n)%nat → ((randbelow n g).1 < n)%nat.

Lemma random_randint_ok (a b : Z) (g : G) :
  a <= b →
  ∃ x g', random_randint randint_draw a b g = Some (x, g') ∧ a <= x <= b.
Proof.
  intros Hab. unfold random_randint.
  destruct (Z.leb_spec a b); [| lia].
  pose proof (randint_draw_range a b g Hab) as Hx.
  destruct (randint_draw a b g) as [x g']. by exists x, g'.
Qed.

Lemma random_choice_ok {A : Type} (seq : list A) (g : G) :
  seq ≠ [] →
  ∃ x g', random_choice randbelow seq g = Some (x, g') ∧ x ∈ seq.
Proof.
  intros Hne. unfold random_choice. destruct seq as [|y seq]; [done |].
  pose proof (randbelow_range (length (y :: seq)) g ltac:(simpl; lia)) as Hi.
  destruct (randbelow (length (y :: seq)) g) as [i g']. cbn [fst] in Hi.
  destruct (lookup_lt_is_Some_2 (y :: seq) i Hi) as [x Hx].
  rewrite Hx. exists x, g'. split; [done |].
  apply list_elem_of_lookup. by exists i.
Qed.

Lemma half_bounds (n : Z) : 1 <= n → 0 <= n / 2 ∧ n / 2 <= n - 1.
Proof.
  intros Hn. split; [apply Z.div_pos; lia |].
  pose proof (Z.div_lt n 2 ltac:(lia) ltac:(lia)). lia.
Qed.

Lemma half_nonpos (n : Z) : n <= 0 → n / 2 <= 0.
Proof. intros Hn. apply Z.div_le_upper_bound; lia. Qed.

Lemma make_hot_ok (n : Z) (count : nat) :
  1 <= n →
  ∀ g, ∃ hot g',
    make_hot randint_draw count n g = Some (hot, g') ∧
    length hot = count ∧
    Forall (λ lr, 0 <= lr.1 <= lr.2 ∧ lr.2 < n) hot.
Proof.
  intros Hn. induction count as [|count IH]; intros g.
  - by exists [], g.
  - cbn [make_hot]. unfold rnd_bind at 1.
    destruct (half_bounds n Hn) as [Hh1 Hh2].
    destruct (random_randint_ok 0 (n / 2) g Hh1) as (a & g1 & -> & Ha).
    unfold rnd_bind at 1.
    destruct (random_randint_ok (n / 2) (n - 1) g1 Hh2)
      as (b & g2 & -> & Hb).
    unfold rnd_bind at 1.
    destruct (IH g2) as (hot & g3 & -> & Hlen & Hhot).
    exists ((a, b) :: hot), g3. split; [done |]. split; [simpl; lia |].
    apply Forall_cons. split; [simpl; lia | done].
Qed.

Lemma make_query_ok (n : Z) (hot : list (Z * Z)) (p_hot p_update : F) :
  1 <= n →
  hot ≠ [] →
  Forall (λ lr, 0 <= lr.1 <= lr.2 ∧ lr.2 < n) hot →
  ∀ g, ∃ qy g',
    make_query randint_draw random_draw float_lt randbelow
      n hot p_hot p_update g = Some (qy, g') ∧
    valid_query n qy.
Proof.
  intros Hn Hne Hhot g. unfold make_query, rnd_bind at 1, random_random at 1.
  destruct (random_draw g) as [u g1].
  destruct (float_lt u p_update).
  - unfold rnd_bind at 1.
    destruct (random_randint_ok 0 (n - 1) g1 ltac:(lia)) as (idx & g2 & -> & Hi).
    unfold rnd_bind at 1.
    destruct (random_randint_ok 1 100 g2 ltac:(lia)) as (val & g3 & -> & Hv).
    exists (Update idx val), g3. split; [done |]. simpl. lia.
  - unfold rnd_bind at 1, random_random at 1.
    destruct (random_draw g1) as [h g2].
    destruct (float_lt h p_hot).
    + unfold rnd_bind at 1.
      destruct (random_choice_ok hot g2 Hne) as ([a b] & g3 & -> & Hin).
      exists (Range a b), g3. split; [done |].
      rewrite Forall_forall in Hhot. apply (Hhot _ Hin).
    + unfold rnd_bind at 1.
      destruct (random_randint_ok 0 (n - 1) g2 ltac:(lia))
        as (l & g3 & -> & Hl).
      unfold rnd_bind at 1.
      destruct (random_randint_ok l (n - 1) g3 ltac:(lia))
        as (r & g4 & -> & Hr).
      exists (Range l r), g4. split; [done |]. simpl. lia.
Qed.

Lemma make_queries_loop_ok (n : Z) (hot : list (Z * Z)) (p_hot p_update : F)
    (count : nat) :
  1 <= n →
  hot ≠ [] →
  Forall (λ lr, 0 <= lr.1 <= lr.2 ∧ lr.2 < n) hot →
  ∀ g, ∃ qs g',
    make_queries_loop randint_draw random_draw float_lt randbelow
      count n hot p_hot p_update g = Some (qs, g') ∧
    length qs = count ∧
    Forall (valid_query n) qs.
Proof.
  intros Hn Hne Hhot. induction count as [|count IH]; intros g.
  - by exists [], g.
  - cbn [make_queries_loop]. unfold rnd_bind at 1.
    destruct (make_query_ok n hot p_hot p_update Hn Hne Hhot g)
      as (qy & g1 & -> & Hqy).
    unfold rnd_bind at 1.
    destruct (IH g1) as (qs & g2 & -> & Hlen & Hqs).
    exists (qy :: qs), g2. split; [done |]. split; [simpl; lia |].
    by apply Forall_cons.
Qed.

Lemma make_queries_ok (n q hot_pool : Z) (p_hot p_update : F) (g : G) :
  1 <= n →
  1 <= hot_pool →
  ∃ qs g',
    make_queries randint_draw random_draw float_lt randbelow
      n q hot_pool p_hot p_update g = Some (qs, g') ∧
    length qs = Z.to_nat q ∧
    Forall (valid_query n) qs.
Proof.
  intros Hn Hpool. unfold make_queries, rnd_bind at 1.
  destruct (make_hot_ok n (Z.to_nat hot_pool) Hn g)
    as (hot & g1 & -> & Hlen & Hhot).
  apply make_queries_loop_ok; [done | | done].
  intros ->. simpl in Hlen. lia.
Qed.

(** X21. The workload is well formed: for an array length n >= 1 and a
    hot pool of at least one range, [make_queries] does not raise, returns
    exactly q queries (none when q < 1), and every one of them is a range
    with 0 <= left <= right < n or an update with 0 <= index < n,
    whatever the random source draws within its bounds. *)
Theorem make_queries_valid (n q hot_pool : Z) (p_hot p_update : F) (g : G) :
  1 <= n →
  1 <= hot_pool →
  ∃ qs g',
    make_queries randint_draw random_draw float_lt randbelow
      n q hot_pool p_hot p_update g = Some (qs, g') ∧
    length qs = Z.to_nat q ∧
    Forall (valid_query n) qs.
Proof. apply make_queries_ok. Qed.

(** X22. For n <= 0 there is no cell to address: with a hot pool of at
    least one range, [make_queries] raises on the first pair it draws
    (the range of [randint] is empty), whatever q is. *)
Theorem make_queries_no_cells (n q hot_pool : Z) (p_hot p_update : F) (g : G) :
  n <= 0 →
  1 <= hot_pool →
  make_queries randint_draw random_draw float_lt randbelow
    n q hot_pool p_hot p_update g = None.
Proof.
  intros Hn Hpool. unfold make_queries, rnd_bind at 1.
  destruct (Z.to_nat hot_pool) as [|count] eqn:E; [lia |].
  cbn [make_hot]. unfold rnd_bind at 1, random_randint at 1.
  pose proof (half_nonpos n Hn) as Hhalf'.
  destruct (Z.leb_spec 0 (n / 2)) as [Hhalf|]; [| done].
  destruct (randint_draw 0 (n / 2) g) as [a g1].
  unfold rnd_bind at 1, random_randint at 1.
  destruct (Z.leb_spec (n / 2) (n - 1)); [lia | done].
Qed.

(** X23. The generated workload is one the cache is exact on: on an array
    of length n >= 1, the queries [make_queries] returns for n make the
    cached run (any capacity) and the uncached run finish with the same
    values and the same array. *)
Theorem make_queries_runs_agree
    (array : list Z) (q hot_pool C : Z) (p_hot p_update : F) (g : G) :
  1 <= Z.of_nat (length array) →
  1 <= hot_pool →
  ∃ qs g' vals array',
    make_queries randint_draw random_draw float_lt randbelow
      (Z.of_nat (length array)) q hot_pool p_hot p_update g = Some (qs, g') ∧
    run_sequence_with_cache array qs C = (Ok vals, array') ∧
    run_sequence_no_cache array qs = (Ok vals, array').
Proof.
  intros Hn Hpool.
  destruct (make_queries_ok (Z.of_nat (length array)) q hot_pool p_hot
              p_update g Hn Hpool) as (qs & g2 & Hmk & _ & Hqs).
  destruct (loops_agree qs array {| capacity := C; _data := [] |} Hqs)
    as (vals & array' & cache' & H1 & H2).
  - apply NoDup_nil_2.
  - intros l r v Hin. by apply elem_of_nil in Hin.
  - exists qs, g2, vals, array'. split; [done |].
    unfold run_sequence_with_cache, run_sequence_no_cache. cbn [LRUCache_init].
    by rewrite H1, H2.
Qed.

End random_facts.

Lemma counter_randint_draw_range (a b : Z) (g : nat) :
  a <= b → a <= (counter_randint_draw a b g).1 <= b.
Proof.
  intros Hab. unfold counter_randint_draw. cbn [fst].
  pose proof (Z.mod_pos_bound (Z.of_nat g) (b - a + 1) ltac:(lia)). lia.
Qed.

Lemma counter_randbelow_range (n g : nat) :
  (0 < n)%nat → ((counter_randbelow n g).1 < n)%nat.
Proof.
  intros Hn. unfold counter_randbelow. cbn [fst].
  apply Nat.mod_upper_bound. lia.
Qed.

Example counter_workload :
  make_queries counter_randint_draw counter_random_draw Nat.ltb
    counter_randbelow 10 6 3 95%nat 30%nat 0%nat
  = Some ([Update 7 9; Range 4 5; Range 4 5; Range 4 5; Range 4 5;
           Range 4 5], 24%nat).
Proof. vm_compute. reflexivity. Qed.

Lemma make_queries_valid_witness :
  ∃ qs g',
    make_queries counter_randint_draw counter_random_draw Nat.ltb
      counter_randbelow 10 6 3 95%nat 30%nat 0%nat = Some (qs, g') ∧
    length qs = Z.to_nat 6 ∧
    Forall (valid_query 10) qs.
Proof.
  apply (make_queries_valid counter_randint_draw counter_random_draw Nat.ltb
           counter_randbelow counter_randint_draw_range
           counter_randbelow_range 10 6 3 95%nat 30%nat 0%nat); lia.
Defined.

Lemma make_queries_no_cells_witness :
  make_queries counter_randint_draw counter_random_draw Nat.ltb
    counter_randbelow 0 6 3 95%nat 30%nat 0%nat = None.
Proof.
  apply (make_queries_no_cells counter_randint_draw counter_random_draw
           Nat.ltb counter_randbelow 0 6 3 95%nat 30%nat 0%nat); lia.
Defined.

Lemma make_queries_runs_agree_witness :
  ∃ qs g' vals array',
    make_queries counter_randint_draw counter_random_draw Nat.ltb
      counter_randbelow (Z.of_nat (length (replicate 10 1))) 6 3
      95%nat 30%nat 0%nat = Some (qs, g') ∧
    run_sequence_with_cache (replicate 10 1) qs 2 = (Ok vals, array') ∧
    run_sequence_no_cache (replicate 10 1) qs = (Ok vals, array').
Proof.
  apply (make_queries_runs_agree counter_randint_draw counter_random_draw
           Nat.ltb counter_randbelow counter_randint_draw_range
           counter_randbelow_range (replicate 10 1) 6 3 2 95%nat 30%nat 0%nat);
    simpl; lia.
Defined.

(** * The rate limiter *)

Section limiter_facts.
Context {T : Type}.
Variable float_of_int : Z → T.
Variable float_add float_sub : T → T → T.
Variable float_le float_lt : T → T → bool.


Implicit Types (s : @SlidingWindowRateLimiter T) (u : string) (dq : list T).

Lemma popleft_while_idem (w : T) dq :
  popleft_while float_le w (popleft_while float_le w dq)
  = popleft_while float_le w dq.
Proof.
  induction dq as [|t dq IH]; [done |]. simpl.
  destruct (float_le t w) eqn:E; [done |]. simpl. by rewrite E.
Qed.

Lemma popleft_while_length (w : T) dq :
  (length (popleft_while float_le w dq) ≤ length dq)%nat.
Proof.
  induction dq as [|t dq IH]; [done |]. simpl.
  destruct (float_le t w); simpl; lia.
Qed.

Lemma popleft_while_suffix (w : T) dq :
  popleft_while float_le w dq `suffix_of` dq.
Proof.
  induction dq as [|t dq IH]; [done |]. simpl.
  destruct (float_le t w); [by apply suffix_cons_r | done].
Qed.

Lemma cleanup_config s u t :
  window_size (_cleanup_window float_sub float_le s u t) = window_size s ∧
  max_requests (_cleanup_window float_sub float_le s u t) = max_requests s.
Proof. unfold _cleanup_window. by destruct (history s !! u). Qed.

(** What [history] holds for the user after the cleanup: the deque
    without its expired head, or nothing if nothing is left. *)
Lemma cleanup_lookup s u t :
  history (_cleanup_window float_sub float_le s u t) !! u =
    match history s !! u with
    | None => None
    | Some dq =>
        match popleft_while float_le (float_sub t (window_size s)) dq with
        | [] => None
        | dq' => Some dq'
        end
    end.
Proof.
  unfold _cleanup_window. destruct (history s !! u) as [dq|] eqn:E; [| done].
  cbn zeta. cbn [history].
  destruct (popleft_while _ _ dq).
  - apply lookup_delete_eq.
  - apply lookup_insert_eq.
Qed.

Lemma cleanup_lookup_ne s u u' t :
  u' ≠ u → history (_cleanup_window float_sub float_le s u t) !! u' = history s !! u'.
Proof.
  intros Hne. unfold _cleanup_window.
  destruct (history s !! u) as [dq|] eqn:E; [| done].
  cbn zeta. cbn [history]. destruct (popleft_while _ _ dq).
  - by apply lookup_delete_ne.
  - by apply lookup_insert_ne.
Qed.

Lemma cleanup_nonempty s u t :
  history (_cleanup_window float_sub float_le s u t) !! u ≠ Some [].
Proof.
  rewrite cleanup_lookup. destruct (history s !! u) as [dq|]; [| done].
  by destruct (popleft_while _ _ dq).
Qed.

(** Cleaning twice at one reading of the clock is cleaning once. *)
Lemma cleanup_idem s u t :
  _cleanup_window float_sub float_le
    (_cleanup_window float_sub float_le s u t) u t
  = _cleanup_window float_sub float_le s u t.
Proof.
  unfold _cleanup_window at 1. rewrite cleanup_lookup.
  destruct (cleanup_config s u t) as [Hw Hm]. rewrite Hw.
  destruct (history s !! u) as [dq|] eqn:E; [| done].
  pose proof (popleft_while_idem (float_sub t (window_size s)) dq) as Hidem.
  destruct (popleft_while float_le _ dq) as [|t0 dq'] eqn:E'; [done |].
  cbn zeta. rewrite Hidem.
  unfold _cleanup_window. rewrite E. cbn zeta. rewrite E'. cbn.
  f_equal. apply insert_insert_eq.
Qed.

(** X24. With a quota of at least 1, [can_send_message] tells what
    [record_message] will do: asked of the same limiter at the same
    reading of the clock, the two return the same answer, for every user
    and every state of the history. *)
Theorem record_agrees_with_can_send s u (now : T) :
  1 <= max_requests s →
  (record_message float_sub float_le s u now).1
  = (can_send_message float_sub float_le s u now).1.
Proof.
  intros Hm. unfold record_message, can_send_message.
  destruct (cleanup_config s u now) as [_ Hm1].
  destruct (history (_cleanup_window float_sub float_le s u now) !! u) as [dq|];
    unfold default; cbn [from_option id].
  - by destruct (Z.of_nat (length dq) <? _).
  - rewrite Hm1. change (Z.of_nat (length [])) with 0.
    destruct (Z.ltb_spec 0 (max_requests s)); [done | lia].
Qed.

(** X25. With a quota of 0 or less the two disagree: [record_message]
    refuses every message, of every user in every state, while
    [can_send_message] still answers True for a user without history
    (the first message is always allowed). *)
Theorem nonpositive_quota s u (now : T) :
  max_requests s <= 0 →
  (record_message float_sub float_le s u now).1 = false ∧
  (history s !! u = None → (can_send_message float_sub float_le s u now).1 = true).
Proof.
  intros Hm. split.
  - unfold record_message.
    destruct (cleanup_config s u now) as [_ Hm1]. rewrite Hm1.
    pose proof (cleanup_nonempty s u now) as Hne.
    destruct (history (_cleanup_window float_sub float_le s u now) !! u) as [[|t dq]|];
      unfold default; cbn [from_option id]; [done | |].
    + destruct (Z.ltb_spec (Z.of_nat (length (t :: dq))) (max_requests s))
        as [Hlt|]; [simpl in Hlt; lia | done].
    + change (Z.of_nat (length [])) with 0.
      destruct (Z.ltb_spec 0 (max_requests s)); [lia | done].
  - intros Hu. unfold can_send_message.
    pose proof (cleanup_lookup s u now) as Hl. rewrite Hu in Hl.
    by rewrite Hl.
Qed.

(** X26. A message that is accepted is recorded as the newest timestamp
    of the user: when [record_message] returns True, the user's deque
    afterwards is exactly what the cleanup loop leaves of the old one (the
    old deque without the leading timestamps that are
    <= now - window_size; a suffix of it, shorter than the quota),
    followed by the reading of the clock. *)
Theorem record_message_accepted s u (now : T) :
  (record_message float_sub float_le s u now).1 = true →
  ∃ dq,
    dq = popleft_while float_le (float_sub now (window_size s))
           (default [] (history s !! u)) ∧
    history (record_message float_sub float_le s u now).2 !! u
      = Some (dq ++ [now]) ∧
    dq `suffix_of` default [] (history s !! u) ∧
    Z.of_nat (length dq) < max_requests s.
Proof.
  unfold record_message. destruct (cleanup_config s u now) as [_ Hm1].
  rewrite Hm1. pose proof (cleanup_lookup s u now) as Hl.
  assert (default [] (history (_cleanup_window float_sub float_le s u now) !! u)
          = popleft_while float_le (float_sub now (window_size s))
              (default [] (history s !! u))) as Hdq.
  { rewrite Hl. destruct (history s !! u) as [dq0|]; [| done].
    unfold default at 2. cbn [from_option id].
    by destruct (popleft_while _ _ dq0). }
  rewrite Hdq.
  set (dq := popleft_while float_le _ _).
  destruct (Z.ltb_spec (Z.of_nat (length dq)) (max_requests s)) as [Hlt|];
    [| done].
  intros _. exists dq. cbn [snd history].
  split; [done |]. split; [apply lookup_insert_eq |]. split; [| done].
  apply popleft_while_suffix.
Qed.

(** X27. A call about one user leaves every other user's history alone:
    after [can_send_message], [record_message] or
    [time_until_next_allowed] for u, the deque of any other user is what
    it was, and the window and the quota are unchanged. *)
Theorem limiter_step_other_users s (c : limiter_call) u u' (now : T) :
  c = CanSend u now ∨ c = Record u now ∨ c = TimeUntil u now →
  u' ≠ u →
  history (limiter_step float_of_int float_add float_sub float_le float_lt
             s c) !! u' = history s !! u' ∧
  window_size (limiter_step float_of_int float_add float_sub float_le
                 float_lt s c) = window_size s ∧
  max_requests (limiter_step float_of_int float_add float_sub float_le
                  float_lt s c) = max_requests s.
Proof.
  intros Hc Hne.
  pose proof (cleanup_lookup_ne s u u' now Hne) as Hl.
  destruct (cleanup_config s u now) as [Hw Hm].
  destruct Hc as [->|[->| ->]]; cbn [limiter_step].
  - unfold can_send_message.
    by destruct (history (_cleanup_window float_sub float_le s u now) !! u).
  - unfold record_message.
    destruct (Z.of_nat _ <? _); cbn [snd history window_size max_requests];
      by rewrite lookup_insert_ne.
  - unfold time_until_next_allowed.
    destruct (history (_cleanup_window float_sub float_le s u now) !! u)
      as [dq|]; [| done].
    destruct (Z.of_nat _ <? _); [done |]. by destruct dq.
Qed.

(** X28. Asking does not wear the answer out: [can_send_message] asked
    again of the limiter it left, at the same reading of the clock,
    returns the same answer and leaves the same limiter. *)
Theorem can_send_message_idempotent s u (now : T) :
  can_send_message float_sub float_le
    (can_send_message float_sub float_le s u now).2 u now
  = can_send_message float_sub float_le s u now.
Proof.
  assert ((can_send_message float_sub float_le s u now).2
          = _cleanup_window float_sub float_le s u now) as ->.
  { unfold can_send_message.
    by destruct (history (_cleanup_window float_sub float_le s u now) !! u). }
  unfold can_send_message. by rewrite cleanup_idem.
Qed.

(** X29. [time_until_next_allowed] never raises (the deque it reads the
    head of is never empty), leaves the limiter as [can_send_message]
    does, and returns 0.0 whenever [can_send_message] answers True at the
    same reading of the clock. *)
Theorem time_until_next_allowed_ok s u (now : T) :
  ∃ wait,
    (time_until_next_allowed float_of_int float_add float_sub float_le
       float_lt s u now).1 = Ok wait ∧
    (time_until_next_allowed float_of_int float_add float_sub float_le
       float_lt s u now).2
    = (can_send_message float_sub float_le s u now).2 ∧
    ((can_send_message float_sub float_le s u now).1 = true → wait = float_of_int 0).
Proof.
  unfold time_until_next_allowed, can_send_message.
  pose proof (cleanup_nonempty s u now) as Hne.
  destruct (history (_cleanup_window float_sub float_le s u now) !! u)
    as [dq|]; [| by eexists].
  destruct (Z.of_nat (length dq) <? _) eqn:E; [by eexists |].
  destruct dq as [|t0 dq]; [done |]. by eexists.
Qed.

Lemma step_max_requests s (c : limiter_call) :
  max_requests (limiter_step float_of_int float_add float_sub float_le
                  float_lt s c) = max_requests s.
Proof.
  destruct c as [u now|u now|u now]; cbn [limiter_step];
    destruct (cleanup_config s u now) as [_ Hm].
  - unfold can_send_message.
    by destruct (history (_cleanup_window float_sub float_le s u now) !! u).
  - unfold record_message. by destruct (Z.of_nat _ <? _).
  - unfold time_until_next_allowed.
    destruct (history (_cleanup_window float_sub float_le s u now) !! u)
      as [dq|]; [| done].
    destruct (Z.of_nat _ <? _); [done |]. by destruct dq.
Qed.

Lemma cleanup_quota s u (t : T) (q : Z) :
  (∀ u' dq, history s !! u' = Some dq → Z.of_nat (length dq) <= q) →
  ∀ u' dq,
    history (_cleanup_window float_sub float_le s u t) !! u' = Some dq →
    Z.of_nat (length dq) <= q.
Proof.
  intros Hq u' dq. destruct (decide (u' = u)) as [->|Hne].
  - rewrite cleanup_lookup. destruct (history s !! u) as [dq0|] eqn:E; [| done].
    pose proof (popleft_while_length (float_sub t (window_size s)) dq0) as Hl.
    specialize (Hq _ _ E).
    destruct (popleft_while _ _ dq0) as [|t0 dq1]; [done |].
    intros [= <-]. lia.
  - rewrite cleanup_lookup_ne by done. apply Hq.
Qed.

Lemma insert_quota (h : gmap string (list T)) u (x : list T) (q : Z) :
  (∀ u' dq, h !! u' = Some dq → Z.of_nat (length dq) <= q) →
  Z.of_nat (length x) <= q →
  ∀ u' dq, <[u := x]> h !! u' = Some dq → Z.of_nat (length dq) <= q.
Proof.
  intros Hq Hx u' dq. destruct (decide (u' = u)) as [->|Hne].
  - rewrite lookup_insert_eq. by intros [= <-].
  - rewrite lookup_insert_ne by done. apply Hq.
Qed.

Lemma step_quota s (c : limiter_call) :
  (∀ u dq, history s !! u = Some dq →
     Z.of_nat (length dq) <= Z.max 0 (max_requests s)) →
  ∀ u dq,
    history (limiter_step float_of_int float_add float_sub float_le
               float_lt s c) !! u = Some dq →
    Z.of_nat (length dq) <= Z.max 0 (max_requests s).
Proof.
  intros Hq. destruct c as [u now|u now|u now]; cbn [limiter_step];
    pose proof (cleanup_quota s u now _ Hq) as Hq1;
    destruct (cleanup_config s u now) as [_ Hm].
  - unfold can_send_message.
    by destruct (history (_cleanup_window float_sub float_le s u now) !! u).
  - unfold record_message. rewrite Hm.
    destruct (history (_cleanup_window float_sub float_le s u now) !! u) as [dq0|] eqn:E;
      unfold default; cbn [from_option id].
    + pose proof (Hq1 _ _ E) as Hq0.
      destruct (Z.ltb_spec (Z.of_nat (length dq0)) (max_requests s));
        cbn [snd history]; apply insert_quota; try done.
      rewrite length_app. simpl. lia.
    + change (Z.of_nat (length [])) with 0.
      destruct (Z.ltb_spec 0 (max_requests s));
        cbn [snd history]; apply insert_quota; try done; simpl; lia.
  - unfold time_until_next_allowed.
    destruct (history (_cleanup_window float_sub float_le s u now) !! u)
      as [dq0|]; [| done].
    destruct (Z.of_nat _ <? _); [done |]. by destruct dq0.
Qed.

(** X30. The quota bounds what is kept: in a limiter built with window w
    and quota m, after any sequence of calls, for any users at any
    readings of the clock, no user's deque holds more than m timestamps
    (none at all when m <= 0). *)
Theorem limiter_quota_invariant
    (w m : Z) (calls : list limiter_call) u dq :
  history (limiter_run float_of_int float_add float_sub float_le float_lt
             (SlidingWindowRateLimiter_init float_of_int w m) calls) !! u
    = Some dq →
  Z.of_nat (length dq) <= Z.max 0 m.
Proof.
  assert (∀ calls s,
            (∀ u dq, history s !! u = Some dq →
               Z.of_nat (length dq) <= Z.max 0 (max_requests s)) →
            ∀ u dq,
              history (limiter_run float_of_int float_add float_sub
                         float_le float_lt s calls) !! u = Some dq →
              Z.of_nat (length dq) <= Z.max 0 (max_requests s)) as Hrun.
  { clear. unfold limiter_run.
    induction calls as [|c calls IH]; intros s Hq; [done |].
    cbn [foldl]. rewrite <- (step_max_requests s c). apply IH.
    rewrite step_max_requests. by apply step_quota. }
  apply (Hrun calls (SlidingWindowRateLimiter_init float_of_int w m)).
  intros u' dq'. cbn [history SlidingWindowRateLimiter_init].
  by rewrite lookup_empty.
Qed.

End limiter_facts.

(** The theorems about the limiter, run with whole numbers for floats. *)

Lemma record_agrees_with_can_send_witness :
  (record_message Z.sub Z.leb
     (SlidingWindowRateLimiter_init id 10 1) "1" 5).1
  = (can_send_message Z.sub Z.leb
       (SlidingWindowRateLimiter_init id 10 1) "1" 5).1.
Proof.
  apply (record_agrees_with_can_send Z.sub Z.leb
           (SlidingWindowRateLimiter_init id 10 1) "1" 5).
  simpl. lia.
Defined.

Lemma nonpositive_quota_witness :
  (record_message Z.sub Z.leb
     (SlidingWindowRateLimiter_init id 10 0) "1" 5).1 = false ∧
  (history (SlidingWindowRateLimiter_init id 10 0) !! "1" = None →
   (can_send_message Z.sub Z.leb
      (SlidingWindowRateLimiter_init id 10 0) "1" 5).1 = true).
Proof.
  apply (nonpositive_quota Z.sub Z.leb
           (SlidingWindowRateLimiter_init id 10 0) "1" 5).
  simpl. lia.
Defined.

Lemma record_message_accepted_witness :
  ∃ dq,
    dq = popleft_while Z.leb
           (12 - window_size {| window_size := 10; max_requests := 2;
                                history := {["1" := [1; 5]]} |})
           (default []
              (history {| window_size := 10; max_requests := 2;
                          history := {["1" := [1; 5]]} |} !! "1")) ∧
    history (record_message Z.sub Z.leb
               {| window_size := 10; max_requests := 2;
                  history := {["1" := [1; 5]]} |} "1" 12).2 !! "1"
    = Some (dq ++ [12]) ∧
    dq `suffix_of`
      default []
        (history {| window_size := 10; max_requests := 2;
                    history := {["1" := [1; 5]]} |} !! "1") ∧
    Z.of_nat (length dq)
      < max_requests {| window_size := 10; max_requests := 2;
                        history := {["1" := [1; 5]]} |}.
Proof.
  apply (record_message_accepted Z.sub Z.leb
           {| window_size := 10; max_requests := 2;
              history := {["1" := [1; 5]]} |} "1" 12).
  vm_compute. reflexivity.
Defined.

(** In that run the cleanup drops the timestamp 1, which has left the
    window at 12, and keeps 5; the accepted message is recorded behind
    it. *)
Example accepted_message_run :
  popleft_while Z.leb (12 - 10) [1; 5] = [5] ∧
  record_message Z.sub Z.leb
    {| window_size := 10; max_requests := 2;
       history := {["1" := [1; 5]]} |} "1" 12
  = (true, {| window_size := 10; max_requests := 2;
              history := {["1" := [5; 12]]} |}).
Proof. split; [reflexivity |]. vm_compute. reflexivity. Qed.

Lemma limiter_step_other_users_witness :
  history (limiter_step id Z.add Z.sub Z.leb Z.ltb
             (record_message Z.sub Z.leb
                (SlidingWindowRateLimiter_init id 10 1) "2" 3).2
             (Record "1" 5)) !! "2"
  = history (record_message Z.sub Z.leb
               (SlidingWindowRateLimiter_init id 10 1) "2" 3).2 !! "2" ∧
  window_size (limiter_step id Z.add Z.sub Z.leb Z.ltb
                 (record_message Z.sub Z.leb
                    (SlidingWindowRateLimiter_init id 10 1) "2" 3).2
                 (Record "1" 5))
  = window_size (record_message Z.sub Z.leb
                   (SlidingWindowRateLimiter_init id 10 1) "2" 3).2 ∧
  max_requests (limiter_step id Z.add Z.sub Z.leb Z.ltb
                  (record_message Z.sub Z.leb
                     (SlidingWindowRateLimiter_init id 10 1) "2" 3).2
                  (Record "1" 5))
  = max_requests (record_message Z.sub Z.leb
                    (SlidingWindowRateLimiter_init id 10 1) "2" 3).2.
Proof.
  apply (limiter_step_other_users id Z.add Z.sub Z.leb Z.ltb
           (record_message Z.sub Z.leb
              (SlidingWindowRateLimiter_init id 10 1) "2" 3).2
           (Record "1" 5) "1" "2" 5).
  - right. left. reflexivity.
  - intros H. discriminate H.
Defined.

Lemma limiter_quota_invariant_witness :
  Z.of_nat (length [12]) <= Z.max 0 1.
Proof.
  apply (limiter_quota_invariant id Z.add Z.sub Z.leb Z.ltb 10 1
           [Record "1" 1; Record "1" 2; TimeUntil "1" 3; Record "1" 12;
            CanSend "2" 12] "1" [12]).
  vm_compute. reflexivity.
Defined.
